(** * JastrowSpin: the one- and two-body Jastrow factor of pyqmc

    A shallow embedding of [src/pyqmc/jastrowspin.py] and the properties of
    its incremental-update engine.

    Conventions of the embedding.
    - The methods are written once, over a type of cells with operations
      [+], [-], [*], 0 and 1 of which no law is assumed.  They are then taken
      at two arithmetics: at a commutative ring [R], where sums and products
      are exact, and at the binary64 floats, where every operation rounds as
      numpy's doubles do.  The properties that rest on the laws of
      arithmetic are proved in the first and are statements of exact
      arithmetic; the last part of the file runs the methods in the second
      and shows where rounding makes them differ.
    - The walker axis and the electron axis of an array are sequences, since
      the code masks, slices and indexes them.  The dense inner axes (ion,
      basis index, spin, channel) are index functions; their extents are
      [natm], [size a_basis], [size b_basis], 2 and 3, as fixed by
      [__init__].  A loop over a basis that writes column [k] at iteration
      [k] is written as the table of its columns.
    - A method is a computation in a state-and-exception monad over the
      instance: it ends in [Return v s] or, when a numpy index operation
      raises, in [Raise s], where [s] is the instance as it then is. *)

From HB Require Import structures.
From mathcomp Require Import boot ssralg ssrint.
From Stdlib Require Import Lia.
From Corelib Require PrimFloat.

Set Implicit Arguments.
Unset Strict Implicit.
Unset Printing Implicit Defensive.

Import GRing.Theory.
Local Open Scope ring_scope.
Declare Scope cell_scope.

(** ** numpy index operations on one axis *)

Section Numpy.
Variable T : Type.
Implicit Types (m : bitseq) (xs vs : seq T).

(** [xs[m]] with a boolean index [m]: numpy raises when the length of [m]
    differs from the extent of the axis. *)
Definition bool_index m xs : option (seq T) :=
  if size m == size xs then Some (mask m xs) else None.

(** [xs[i]] with an integer index. *)
Definition int_index (x0 : T) (i : nat) xs : option T :=
  if i < size xs then Some (nth x0 xs i) else None.

(** [xs[m] = vs]: the cells selected by [m] receive the cells of [vs] in
    order, the others stay. *)
Fixpoint scatter m xs vs : seq T :=
  match m, xs with
  | b :: m', x :: xs' =>
      if b then head x vs :: scatter m' xs' (behead vs)
      else x :: scatter m' xs' vs
  | _, _ => xs
  end.

(** The rank of position [w] among the selected positions of [m]. *)
Definition rank m (w : nat) : nat := count id (take w m).

End Numpy.

(** [rows[:, m]] and [rows[:, i]]: a boolean and an integer index on the
    second axis, of extent [n], of a rectangular array. *)
Definition bool_index_axis1 (T : Type) (n : nat) (m : bitseq)
  (rows : seq (seq T)) : option (seq (seq T)) :=
  if size m == n then Some [seq mask m r | r <- rows] else None.

Definition int_index_axis1 (T : Type) (x0 : T) (n i : nat)
  (rows : seq (seq T)) : option (seq T) :=
  if i < n then Some [seq nth x0 r i | r <- rows] else None.

(** [x.transpose((1, 0))] of an array with [n] columns. *)
Definition transpose (T : Type) (x0 : T) (n : nat) (rows : seq (seq T))
  : seq (seq T) :=
  [seq [seq nth x0 r j | r <- rows] | j <- iota 0 n].

(** [np.arange(n) != e] *)
Definition arange_neq (n e : nat) : bitseq := [seq j != e | j <- iota 0 n].

(** Arithmetic on [nat] comparisons, by [lia]. *)
Ltac nat_hyps :=
  repeat match goal with
  | H : is_true false |- _ => by []
  | H : is_true (_ && _) |- _ =>
      let H1 := fresh in let H2 := fresh in case/andP: H => H1 H2
  | H : is_true (~~ (_ <= _)%N) |- _ => rewrite -ltnNge in H
  | H : is_true (_ <= _)%N |- _ => move/leP: H => H
  | H : is_true (_ == _ :> nat) |- _ => move/eqP: H => H
  | H : is_true (_ != _ :> nat) |- _ => move/eqP: H => H
  end.
Ltac nat_goal :=
  repeat match goal with
  | |- is_true false => exfalso
  | |- is_true (_ && _) => apply/andP; split
  | |- is_true (~~ (_ <= _)%N) => rewrite -ltnNge
  | |- is_true (_ <= _)%N => apply/leP
  | |- is_true (_ == _ :> nat) => apply/eqP
  | |- is_true (_ != _ :> nat) => apply/eqP
  end.
Ltac nat_lia := nat_hyps; nat_goal; rewrite -?plusE -?minusE; lia.
Ltac bool_nat :=
  rewrite ?addn0 ?add0n ?addn1 /= ?andbF ?andbT //;
  first [ by apply/negbTE/negP => ?; nat_lia
        | by apply/esym/negbTE/negP => ?; nat_lia
        | by apply/idP/idP => ?; nat_lia ].

Section Model.

(** The type of an array cell and its arithmetic: [+], [-] and [*] on two
    cells, and the constants 0 and 1.  No law is assumed of them, so the
    methods below are those of the program whether the cells are exact
    numbers or the doubles of numpy, where every operation rounds.  A sum
    over an axis is written as a big operator; the order in which numpy adds
    the terms of a sum is not fixed by the source. *)
Variable T : Type.
Variables (add sub mul : T -> T -> T) (zero one : T).

Local Notation "x + y" := (add x y) : cell_scope.
Local Notation "x - y" := (sub x y) : cell_scope.
Local Notation "x * y" := (mul x y) : cell_scope.
Local Notation "0" := zero : cell_scope.
Local Notation "1" := one : cell_scope.
Local Notation "\sum_ ( i <- r ) F" :=
  (\big[add/zero]_(i <- r) F) : cell_scope.
Local Notation "\sum_ ( i < n ) F" :=
  (\big[add/zero]_(i < n) F) : cell_scope.
Local Open Scope cell_scope.

(** [np.exp] and [np.linalg.norm(d, axis=-1)] on one cell. *)
Variable exp : T -> T.

Definition vec3 : Type := T * T * T.
Definition v0 : vec3 := (0, 0, 0).

Variable norm : vec3 -> T.

(** [dist.dist_i(configs, vec)] on one position of [configs] and one
    position [vec]: the separation vector between them.  The distance
    classes of [pyqmc.distance] are not among the sources of the package. *)
Variable dist_i : vec3 -> vec3 -> vec3.

(** Component [k] of a vector, [k < 3]. *)
Definition comp (v : vec3) (k : nat) : T :=
  if k == 0%N then v.1.1 else if k == 1%N then v.1.2 else v.2.

(** The interface of a basis function of [pyqmc.func3d], on one separation
    vector [d] and its norm [r]; the library applies it cell by cell over the
    leading axes.  The Laplacian comes as its three second derivatives. *)
Record func3d : Type := Func3d {
  fn_value : vec3 -> T -> T;
  fn_gradient : vec3 -> T -> vec3;
  fn_gradient_laplacian : vec3 -> T -> vec3 * vec3
}.

Definition f0 : func3d :=
  Func3d (fun _ _ => 0) (fun _ _ => v0) (fun _ _ => (v0, v0)).

(** The fields of the pyscf molecule that the class reads. *)
Record Mol : Type := MkMol {
  natm : nat;
  nelec : nat * nat;
  atom_coords : seq vec3
}.

(** A configuration ensemble: [configs.configs] has shape
    [(nconf, nelec, 3)]; [shape] keeps the first two extents. *)
Record Configs : Type := MkConfigs {
  shape : nat * nat;
  configs : seq (seq vec3)
}.

(** The position of one electron in every walker: [epos.configs] has shape
    [(nconf, 3)]. *)
Definition Epos : Type := seq vec3.

(** Modelled from the spec: [configs.copy()], [configs.electron(e)] and
    [configs.move(e, new, accept)] of the configuration class, which is not
    among the sources of the package.  [move] commits the new position of
    particle [e] into the snapshot for the walkers selected by the mask. *)
Definition copy (c : Configs) : Configs := MkConfigs (shape c) (configs c).

Definition electron (c : Configs) (e : nat) : Epos :=
  [seq nth v0 row e | row <- configs c].

Definition move (c : Configs) (e : nat) (new : Epos) (accept : bitseq)
  : Configs :=
  MkConfigs (shape c)
    (scatter accept (configs c)
       [seq set_nth v0 rx.1 e rx.2
       | rx <- zip (mask accept (configs c)) (mask accept new)]).

(** Modelled from the spec: [dist.dist_matrix(positions)], the separations of
    all pairs [i < j] of one walker in triangular enumeration (no double
    count, no self-pair), and [dist.pairwise(p1, p2)], the separations of the
    full Cartesian enumeration. *)
Fixpoint dist_matrix (ps : seq vec3) : seq vec3 :=
  if ps is p :: ps' then [seq dist_i q p | q <- ps'] ++ dist_matrix ps'
  else [::].

Definition pairwise (ps1 ps2 : seq vec3) : seq vec3 :=
  flatten [seq [seq dist_i q p | q <- ps2] | p <- ps1].

(** ** The instance *)

Definition cell2 : Type := nat -> nat -> T.
Definition cell3 : Type := nat -> nat -> nat -> T.
Definition zeros2 : cell2 := fun _ _ => 0.
Definition zeros3 : cell3 := fun _ _ _ => 0.

Record JastrowSpin : Type := MkJastrowSpin {
  a_basis : seq func3d;
  b_basis : seq func3d;
  acoeff : cell3;                 (* parameters["acoeff"][I, k, s] *)
  bcoeff : cell2;                 (* parameters["bcoeff"][l, c] *)
  _nelec : nat;
  _mol : Mol;
  _configscurrent : Configs;
  _avalues : seq cell3;           (* [w] [I, k, s] *)
  _bvalues : seq cell2;           (* [w] [l, c] *)
  _a_partial : seq (seq cell2);   (* [e] [w] [I, k] *)
  _b_partial : seq (seq cell2)    (* [e] [w] [l, s] *)
}.

Definition set_configscurrent (c : Configs) (s : JastrowSpin) :=
  MkJastrowSpin (a_basis s) (b_basis s) (acoeff s) (bcoeff s) (_nelec s)
    (_mol s) c (_avalues s) (_bvalues s) (_a_partial s) (_b_partial s).
Definition set_avalues (v : seq cell3) (s : JastrowSpin) :=
  MkJastrowSpin (a_basis s) (b_basis s) (acoeff s) (bcoeff s) (_nelec s)
    (_mol s) (_configscurrent s) v (_bvalues s) (_a_partial s) (_b_partial s).
Definition set_bvalues (v : seq cell2) (s : JastrowSpin) :=
  MkJastrowSpin (a_basis s) (b_basis s) (acoeff s) (bcoeff s) (_nelec s)
    (_mol s) (_configscurrent s) (_avalues s) v (_a_partial s) (_b_partial s).
Definition set_a_partial (v : seq (seq cell2)) (s : JastrowSpin) :=
  MkJastrowSpin (a_basis s) (b_basis s) (acoeff s) (bcoeff s) (_nelec s)
    (_mol s) (_configscurrent s) (_avalues s) (_bvalues s) v (_b_partial s).
Definition set_b_partial (v : seq (seq cell2)) (s : JastrowSpin) :=
  MkJastrowSpin (a_basis s) (b_basis s) (acoeff s) (bcoeff s) (_nelec s)
    (_mol s) (_configscurrent s) (_avalues s) (_bvalues s) (_a_partial s) v.
Definition set_acoeff (v : cell3) (s : JastrowSpin) :=
  MkJastrowSpin (a_basis s) (b_basis s) v (bcoeff s) (_nelec s)
    (_mol s) (_configscurrent s) (_avalues s) (_bvalues s) (_a_partial s)
    (_b_partial s).
Definition set_bcoeff (v : cell2) (s : JastrowSpin) :=
  MkJastrowSpin (a_basis s) (b_basis s) (acoeff s) v (_nelec s)
    (_mol s) (_configscurrent s) (_avalues s) (_bvalues s) (_a_partial s)
    (_b_partial s).

(** [__init__] with both bases supplied: the coefficient tensors are zero;
    the caches do not exist before the first [recompute] and are written
    here as empty arrays. *)
Definition init (mol : Mol) (abasis bbasis : seq func3d) : JastrowSpin :=
  MkJastrowSpin abasis bbasis zeros3 zeros2 ((nelec mol).1 + (nelec mol).2)%N
    mol (MkConfigs (0%N, 0%N) [::]) [::] [::] [::] [::].

(** ** The monad of methods *)

Inductive outcome (A : Type) : Type :=
  | Return of A & JastrowSpin
  | Raise of JastrowSpin.
Arguments Raise {A} _.

Definition M (A : Type) : Type := JastrowSpin -> outcome A.

Definition ret (A : Type) (a : A) : M A := fun s => Return a s.
Definition bind (A B : Type) (c : M A) (k : A -> M B) : M B :=
  fun s => match c s with
           | Return a s' => k a s'
           | Raise s' => Raise s'
           end.
(** Reading [self], assigning to an attribute of [self], and a numpy
    operation that may raise. *)
Definition self : M JastrowSpin := fun s => Return s s.
Definition assign (f : JastrowSpin -> JastrowSpin) : M unit :=
  fun s => Return tt (f s).
Definition numpy (A : Type) (o : option A) : M A :=
  fun s => if o is Some a then Return a s else Raise s.

Definition final_state (A : Type) (o : outcome A) : JastrowSpin :=
  match o with Return _ s => s | Raise s => s end.
Definition returned (A : Type) (o : outcome A) : option A :=
  match o with Return a _ => Some a | Raise _ => None end.

Notation "x <-- c ;; k" := (bind c (fun x => k))
  (at level 100, c at next level, right associativity).
Notation "c ;;; k" := (bind c (fun _ => k))
  (at level 100, right associativity).

(** [for x in xs: body(x)] *)
Definition for_ (X : Type) (xs : seq X) (body : X -> M unit) : M unit :=
  foldr (fun x k => body x ;;; k) (ret tt) xs.

(** ** The methods of [JastrowSpin] *)

(** [b.value(d, r)] with [r = np.linalg.norm(d, axis=-1)], on one cell. *)
Definition val (f : func3d) (d : vec3) : T := fn_value f d (norm d).

(** [int(e >= nup)] and [nup - int(e < nup)] *)
Definition edown_of (s : JastrowSpin) (e : nat) : nat :=
  ((nelec (_mol s)).1 <= e)%N.
Definition sep_of (s : JastrowSpin) (e : nat) : nat :=
  ((nelec (_mol s)).1 - (e < (nelec (_mol s)).1)%N)%N.

(** [dist_i(atom_coords, v)] for one position [v], and [dist_i(rows, vs)]
    for the positions [rows] of each walker against one position per
    walker. *)
Definition dist_ions (s : JastrowSpin) (v : vec3) : seq vec3 :=
  [seq dist_i c v | c <- atom_coords (_mol s)].
Definition dist_rows (rows : seq (seq vec3)) (vs : seq vec3)
  : seq (seq vec3) :=
  [seq [seq dist_i c rv.2 | c <- rv.1] | rv <- zip rows vs].

(** The loop of lines 142-143 for one walker: cell [I, k] is [a_k] at the
    separation from ion [I]. *)
Definition a_values (s : JastrowSpin) (dw : seq vec3) : cell2 :=
  fun I k => val (nth f0 (a_basis s) k) (nth v0 dw I).

(** Lines 129-144. *)
Definition _a_update (e : nat) (epos : Epos) (m : bitseq) : M (seq cell2) :=
  s <-- self ;;
  eposm <-- numpy (bool_index m epos) ;;
  let d := [seq dist_ions s v | v <- eposm] in
  ret [seq a_values s dw | dw <- d].

(** The separations between the proposed position and the other electrons
    of each selected walker: lines 158-161 and 183-187. *)
Definition dist_others (e : nat) (epos : Epos) (m : bitseq)
  : M (seq (seq vec3)) :=
  s <-- self ;;
  let not_e := arange_neq (_nelec s) e in
  cm <-- numpy (bool_index m (configs (_configscurrent s))) ;;
  others <-- numpy (bool_index_axis1 (shape (_configscurrent s)).2 not_e cm) ;;
  eposm <-- numpy (bool_index m epos) ;;
  ret (dist_rows others eposm).

(** [bval[..., :sep].sum(axis=-1)] and [bval[..., sep:].sum(axis=-1)] for
    every [l], as the cell [l, 0] and [l, 1]. *)
Definition b_sums (s : JastrowSpin) (sep : nat) (dw : seq vec3) : cell2 :=
  fun l sp =>
    let bval := [seq val (nth f0 (b_basis s) l) x | x <- dw] in
    if sp == 0%N then \sum_(x <- take sep bval) x
    else \sum_(x <- drop sep bval) x.

(** Lines 146-168. *)
Definition _b_update (e : nat) (epos : Epos) (m : bitseq) : M (seq cell2) :=
  s <-- self ;;
  d <-- dist_others e epos m ;;
  ret [seq b_sums s (sep_of s e) dw | dw <- d].

(** [np.sum(bvalues * bcoeff, axis=(2, 1))] and
    [np.einsum("ijkl,jkl->i", avalues, acoeff)] for one walker. *)
Definition b_contract (s : JastrowSpin) (bv : cell2) : T :=
  \sum_(l < size (b_basis s)) \sum_(c < 3) bv l c * bcoeff s l c.
Definition a_contract (s : JastrowSpin) (av : cell3) : T :=
  \sum_(I < natm (_mol s)) \sum_(k < size (a_basis s)) \sum_(sp < 2)
     av I k sp * acoeff s I k sp.

(** The two [np.einsum("...jk,jk->...", ...)] of [testvalue] for one walker:
    against [acoeff[..., edown]] and against [bcoeff[:, edown:edown+2]]. *)
Definition a_delta_contract (s : JastrowSpin) (edown : nat) (da : cell2) : T :=
  \sum_(I < natm (_mol s)) \sum_(k < size (a_basis s))
     da I k * acoeff s I k edown.
Definition b_delta_contract (s : JastrowSpin) (edown : nat) (db : cell2) : T :=
  \sum_(l < size (b_basis s)) \sum_(c < 2) db l c * bcoeff s l (edown + c)%N.

(** [x - y] on two cells of two axes. *)
Definition sub2 (x y : cell2) : cell2 := fun i j => x i j - y i j.

(** Lines 203-208. *)
Definition value : M (T * seq T) :=
  s <-- self ;;
  let u := [seq b_contract s bv | bv <- _bvalues s] in
  let u' := [seq x.1 + a_contract s x.2 | x <- zip u (_avalues s)] in
  ret (1, u').

(** Lines 278-301.  [val] has one axis, so the transposition of a
    two-axis result does not apply. *)
Definition testvalue (e : nat) (epos : Epos) (mask : option bitseq)
  : M (seq T) :=
  s <-- self ;;
  let m := if mask is Some m then m else nseq (size epos) true in
  let edown := edown_of s e in
  aupdate <-- _a_update e epos m ;;
  ape <-- numpy (int_index [::] e (_a_partial s)) ;;
  apm <-- numpy (bool_index m ape) ;;
  let deltaa := [seq sub2 x.1 x.2 | x <- zip aupdate apm] in
  let a_val := [seq a_delta_contract s edown da | da <- deltaa] in
  bupdate <-- _b_update e epos m ;;
  bpe <-- numpy (int_index [::] e (_b_partial s)) ;;
  bpm <-- numpy (bool_index m bpe) ;;
  let deltab := [seq sub2 x.1 x.2 | x <- zip bupdate bpm] in
  let b_val := [seq b_delta_contract s edown db | db <- deltab] in
  ret [seq exp (x.1 + x.2) | x <- zip b_val a_val].

(** Lines 303-307: the dictionary with the keys ["bcoeff"] and
    ["acoeff"]. *)
Record Pgradient : Type := MkPgradient {
  pg_bcoeff : seq cell2;
  pg_acoeff : seq cell3
}.

Definition pgradient : M Pgradient :=
  s <-- self ;;
  ret (MkPgradient (_bvalues s) (_avalues s)).

(** [av[:, :, edown] += delta] and [bv[:, edown:edown+2] += delta] on the
    cell of one walker. *)
Definition add_slot3 (edown : nat) (av : cell3) (delta : cell2) : cell3 :=
  fun I k sp => if sp == edown then av I k sp + delta I k else av I k sp.
Definition add_slice2 (edown : nat) (bv : cell2) (delta : cell2) : cell2 :=
  fun l c =>
    if (edown <= c)%N && (c < edown + 2)%N then bv l c + delta l (c - edown)%N
    else bv l c.

(** The two writes of the loop of lines 196-201 on one cell of
    [_b_partial]: [cell[l, edown] += delta l] for every [l], and
    [cell[l, 0], cell[l, 1] = new l 0, new l 1] for every [l]. *)
Definition add_col (s : JastrowSpin) (edown : nat) (delta : nat -> T)
  (c : cell2) : cell2 :=
  fun l sp =>
    if (l < size (b_basis s))%N && (sp == edown) then c l sp + delta l
    else c l sp.
Definition set_cols (s : JastrowSpin) (new : cell2) (c : cell2) : cell2 :=
  fun l sp =>
    if (l < size (b_basis s))%N && (sp < 2)%N then new l sp else c l sp.

(** The loop of lines 194-201 on [_b_partial], given the new and the old
    separations [d] and [dold] of the selected walkers.
    [np.ix_(not_e, mask)] turns the two boolean indices into the positions
    they select.  [bdiffT l] is [bdiff.transpose((1, 0))] of iteration [l];
    [cross_row] is line 199 on the row of the [o']-th other electron and
    [own_row] is lines 200-201 on the row of electron [e]. *)
Definition bdiffT (s : JastrowSpin) (e : nat) (d dold : seq (seq vec3))
  (l : nat) : seq (seq T) :=
  transpose 0 (count id (arange_neq (_nelec s) e))
    [seq [seq val (nth f0 (b_basis s) l) x.1 - val (nth f0 (b_basis s) l) x.2
         | x <- zip dd.1 dd.2] | dd <- zip d dold].

Definition cross_row (s : JastrowSpin) (e : nat) (m : bitseq)
  (d dold : seq (seq vec3)) (row : seq cell2) (o' : nat) : seq cell2 :=
  scatter m row
    [seq add_col s (edown_of s e)
           (fun l => nth 0 (nth [::] (bdiffT s e d dold l) o') cw.2) cw.1
    | cw <- zip (mask m row) (iota 0 (count id m))].

Definition own_row (s : JastrowSpin) (e : nat) (m : bitseq)
  (d : seq (seq vec3)) (row : seq cell2) : seq cell2 :=
  scatter m row
    [seq set_cols s (b_sums s (sep_of s e) cd.2) cd.1
    | cd <- zip (mask m row) d].

Definition loop_b_partial (s : JastrowSpin) (e : nat) (m : bitseq)
  (d dold : seq (seq vec3)) : seq (seq cell2) :=
  let not_e := arange_neq (_nelec s) e in
  let bp := _b_partial s in
  let bp1 :=
    scatter not_e bp
      [seq cross_row s e m d dold ro.1 ro.2
      | ro <- zip (mask not_e bp) (iota 0 (count id not_e))] in
  set_nth [::] bp1 e (own_row s e m d (nth [::] bp1 e)).

(** Lines 170-201.  The index operations of lines 185-192 raise for a mask
    or an electron index that does not fit. *)
Definition _update_b_partial (e : nat) (epos : Epos) (m : bitseq) : M unit :=
  s <-- self ;;
  let not_e := arange_neq (_nelec s) e in
  d <-- dist_others e epos m ;;
  cm <-- numpy (bool_index m (configs (_configscurrent s))) ;;
  others <-- numpy (bool_index_axis1 (shape (_configscurrent s)).2 not_e cm) ;;
  cme <-- numpy (int_index_axis1 v0 (shape (_configscurrent s)).2 e cm) ;;
  let dold := dist_rows others cme in
  assign (set_b_partial (loop_b_partial s e m d dold)).

(** Lines 111-127.  The argument [wrap] is not used by the method. *)
Definition updateinternals (e : nat) (epos : Epos) (mask : option bitseq)
  : M unit :=
  s0 <-- self ;;
  let m :=
    if mask is Some m then m
    else nseq (shape (_configscurrent s0)).1 true in
  let edown := edown_of s0 e in
  aupdate <-- _a_update e epos m ;;
  bupdate <-- _b_update e epos m ;;
  (s <-- self ;;
   avm <-- numpy (bool_index m (_avalues s)) ;;
   ape <-- numpy (int_index [::] e (_a_partial s)) ;;
   apm <-- numpy (bool_index m ape) ;;
   assign (set_avalues
     (scatter m (_avalues s)
        [seq add_slot3 edown x.1 (sub2 x.2.1 x.2.2)
        | x <- zip avm (zip aupdate apm)]))) ;;;
  (s <-- self ;;
   bvm <-- numpy (bool_index m (_bvalues s)) ;;
   bpe <-- numpy (int_index [::] e (_b_partial s)) ;;
   bpm <-- numpy (bool_index m bpe) ;;
   assign (set_bvalues
     (scatter m (_bvalues s)
        [seq add_slice2 edown x.1 (sub2 x.2.1 x.2.2)
        | x <- zip bvm (zip bupdate bpm)]))) ;;;
  (s <-- self ;;
   assign (set_a_partial
     (set_nth [::] (_a_partial s) e
        (scatter m (nth [::] (_a_partial s) e) aupdate)))) ;;;
  _update_b_partial e epos m ;;;
  (s <-- self ;;
   assign (set_configscurrent (move (_configscurrent s) e epos m))).

(** The body of the loop of lines 73-76. *)
Definition recompute_partials (cfg : Configs) (notmask : bitseq) (e : nat)
  : M unit :=
  let epos := electron cfg e in
  ap <-- _a_update e epos notmask ;;
  (s <-- self ;; assign (set_a_partial (set_nth [::] (_a_partial s) e ap))) ;;;
  bp <-- _b_update e epos notmask ;;
  (s <-- self ;; assign (set_b_partial (set_nth [::] (_b_partial s) e bp))).

(** Lines 86-90 and 100-104 for one walker: the sums of the basis values
    over the pairs of each channel, and over the electrons of each spin. *)
Definition bvalues_of (s : JastrowSpin) (row : seq vec3) : cell2 :=
  fun i j =>
    let nup := (nelec (_mol s)).1 in
    let d := nth [::] [:: dist_matrix (take nup row);
                          pairwise (take nup row) (drop nup row);
                          dist_matrix (drop nup row)] j in
    \sum_(x <- d) val (nth f0 (b_basis s) i) x.

Definition avalues_of (s : JastrowSpin) (di : seq (seq (seq vec3))) (w : nat)
  : cell3 :=
  fun I i sp =>
    let nup := (nelec (_mol s)).1 in
    let avals :=
      [seq val (nth f0 (a_basis s) i) (nth v0 (nth [::] de w) I) | de <- di] in
    if sp == 0%N then \sum_(x <- take nup avals) x
    else \sum_(x <- drop nup avals) x.

(** Lines 46-109. *)
Definition recompute (cfg : Configs) : M (T * seq T) :=
  assign (set_configscurrent (copy cfg)) ;;;
  let nconf := (shape cfg).1 in
  let n_elec := (shape cfg).2 in
  assign (set_bvalues (nseq nconf zeros2)) ;;;
  assign (set_avalues (nseq nconf zeros3)) ;;;
  assign (set_a_partial (nseq n_elec (nseq nconf zeros2))) ;;;
  assign (set_b_partial (nseq n_elec (nseq nconf zeros2))) ;;;
  let notmask := nseq nconf true in
  for_ (iota 0 n_elec) (recompute_partials cfg notmask) ;;;
  (* electron-electron distances, lines 78-90 *)
  s <-- self ;;
  assign (set_bvalues [seq bvalues_of s row | row <- configs cfg]) ;;;
  (* electron-ion distances, lines 92-104 *)
  let di :=
    [seq [seq dist_ions s (nth v0 row e) | row <- configs cfg]
    | e <- iota 0 n_elec] in
  assign (set_avalues [seq avalues_of s di w | w <- iota 0 nconf]) ;;;
  (* lines 106-109 are the lines 205-208 of [value] *)
  value.

(** Lines 219-224 and 247-252: the separations of the proposed position from
    the other electrons, [dnew], and from the ions, [dinew].  [dist_i]
    subtracts arrays of equal walker count; the broadcasting of an axis of
    extent one is left out. *)
Definition dist_new (e : nat) (epos : Epos)
  : M (seq (seq vec3) * seq (seq vec3)) :=
  s <-- self ;;
  let c := _configscurrent s in
  let not_e := arange_neq (shape c).2 e in
  dall <-- numpy (if size (configs c) == size epos
                  then Some (dist_rows (configs c) epos) else None) ;;
  dnew <-- numpy (bool_index_axis1 (shape c).2 not_e dall) ;;
  let dinew := [seq dist_ions s v | v <- epos] in
  ret (dnew, dinew).

Definition grad_of (f : func3d) (d : vec3) : vec3 := fn_gradient f d (norm d).
Definition gl_of (f : func3d) (d : vec3) : vec3 * vec3 :=
  fn_gradient_laplacian f d (norm d).

(** Lines 210-240.  The result has shape [(3, nconf)]: component [k] of
    walker [w] is [nth _ grad w k].  A loop that accumulates with [+=] from
    zero is the sum over its iterations. *)
Definition gradient (e : nat) (epos : Epos) : M (seq (nat -> T)) :=
  s <-- self ;;
  let nup := (nelec (_mol s)).1 in
  let eup : nat := (e < nup)%N in
  let edown := edown_of s e in
  dd <-- dist_new e epos ;;
  let grad_b (dw : seq vec3) (k : nat) : T :=
    \sum_(l < size (b_basis s))
      (bcoeff s l edown *
         (\sum_(x <- take (nup - eup) dw) comp (grad_of (nth f0 (b_basis s) l) x) k)
       + bcoeff s l (1 + edown)%N *
         (\sum_(x <- drop (nup - eup) dw) comp (grad_of (nth f0 (b_basis s) l) x) k)) in
  let grad_a (dwi : seq vec3) (k : nat) : T :=
    \sum_(i < size (a_basis s)) \sum_(I < natm (_mol s))
      acoeff s I i edown * comp (grad_of (nth f0 (a_basis s) i) (nth v0 dwi I)) k in
  ret [seq (fun k => grad_b x.1 k + grad_a x.2 k) | x <- zip dd.1 dd.2].

(** [np.sum(grad ** 2, axis=0)] for one walker. *)
Definition sumsq (g : nat -> T) : T := \sum_(k < 3) g k * g k.

(** Lines 242-273. *)
Definition gradient_laplacian (e : nat) (epos : Epos)
  : M (seq (nat -> T) * seq T) :=
  s <-- self ;;
  let nup := (nelec (_mol s)).1 in
  let eup : nat := (e < nup)%N in
  let edown := edown_of s e in
  dd <-- dist_new e epos ;;
  let grad_a (dwi : seq vec3) (k : nat) : T :=
    \sum_(i < size (a_basis s)) \sum_(I < natm (_mol s))
      acoeff s I i edown * comp (gl_of (nth f0 (a_basis s) i) (nth v0 dwi I)).1 k in
  let lap_a (dwi : seq vec3) : T :=
    \sum_(i < size (a_basis s)) \sum_(I < natm (_mol s)) \sum_(k < 3)
      acoeff s I i edown * comp (gl_of (nth f0 (a_basis s) i) (nth v0 dwi I)).2 k in
  let grad_b (dw : seq vec3) (k : nat) : T :=
    \sum_(l < size (b_basis s))
      (bcoeff s l edown *
         (\sum_(x <- take (nup - eup) dw) comp (gl_of (nth f0 (b_basis s) l) x).1 k)
       + bcoeff s l (1 + edown)%N *
         (\sum_(x <- drop (nup - eup) dw) comp (gl_of (nth f0 (b_basis s) l) x).1 k)) in
  let lap_b (dw : seq vec3) : T :=
    \sum_(l < size (b_basis s))
      (bcoeff s l edown *
         (\sum_(x <- take (nup - eup) dw) \sum_(k < 3)
            comp (gl_of (nth f0 (b_basis s) l) x).2 k)
       + bcoeff s l (1 + edown)%N *
         (\sum_(x <- drop (nup - eup) dw) \sum_(k < 3)
            comp (gl_of (nth f0 (b_basis s) l) x).2 k)) in
  let grad : seq (nat -> T) :=
    [seq (fun k => grad_a x.2 k + grad_b x.1 k) | x <- zip dd.1 dd.2] in
  let lap : seq T := [seq lap_a x.2 + lap_b x.1 | x <- zip dd.1 dd.2] in
  ret (grad, [seq x.1 + sumsq x.2 | x <- zip lap grad]).

(** Lines 275-276. *)
Definition laplacian (e : nat) (epos : Epos) : M (seq T) :=
  gl <-- gradient_laplacian e epos ;;
  ret gl.2.

(** The two paths of the consistency test.  The full path binds the
    instance to [cfg] by [recompute] and reads [value].  The incremental path
    binds it to an ensemble [cfg0] of the same shape, commits the position
    that each electron has in [cfg], electron by electron, by
    [updateinternals] without a mask, and reads [value]. *)
Definition recompute_path (cfg : Configs) : M (T * seq T) :=
  recompute cfg ;;; value.
Definition move_all (cfg : Configs) : M unit :=
  for_ (iota 0 (shape cfg).2)
    (fun e => updateinternals e (electron cfg e) None).
Definition incremental_path (cfg0 cfg : Configs) : M (T * seq T) :=
  recompute cfg0 ;;; move_all cfg ;;; value.

End Model.

Arguments Raise {T A} _.
Arguments Return {T A} _ _.

Arguments dist_rows : simpl never.
Arguments dist_ions : simpl never.
Arguments loop_b_partial : simpl never.
Arguments cross_row : simpl never.
Arguments own_row : simpl never.
Arguments bdiffT : simpl never.

Notation "x <-- c ;; k" := (bind c (fun x => k))
  (at level 100, c at next level, right associativity).
Notation "c ;;; k" := (bind c (fun _ => k))
  (at level 100, right associativity).

(** * Exact arithmetic

    From here on the cells are the elements of a commutative ring [R] and
    the arithmetic of the methods is that of the ring: every sum and product
    is exact.  The methods are those of the model above, taken at the
    operations of [R]. *)

Section Jastrow.

Variable R : comPzRingType.
Variable exp : R -> R.
Variable norm : vec3 R -> R.
Variable dist_i : vec3 R -> vec3 R -> vec3 R.

Local Notation vec3 := (vec3 R).
Local Notation v0 :=
  (@v0 R 0).
Local Notation comp := (comp (T:=R)).
Local Notation func3d := (func3d R).
Local Notation f0 :=
  (@f0 R 0).
Local Notation Mol := (Mol R).
Local Notation Configs := (Configs R).
Local Notation Epos := (Epos R).
Local Notation copy := (copy (T:=R)).
Local Notation electron :=
  (@electron R 0).
Local Notation move :=
  (@move R 0).
Local Notation dist_matrix :=
  (@dist_matrix R dist_i).
Local Notation pairwise :=
  (@pairwise R dist_i).
Local Notation cell2 := (cell2 R).
Local Notation cell3 := (cell3 R).
Local Notation zeros2 :=
  (@zeros2 R 0).
Local Notation zeros3 :=
  (@zeros3 R 0).
Local Notation JastrowSpin := (JastrowSpin R).
Local Notation set_configscurrent := (set_configscurrent (T:=R)).
Local Notation set_avalues := (set_avalues (T:=R)).
Local Notation set_bvalues := (set_bvalues (T:=R)).
Local Notation set_a_partial := (set_a_partial (T:=R)).
Local Notation set_b_partial := (set_b_partial (T:=R)).
Local Notation set_acoeff := (set_acoeff (T:=R)).
Local Notation set_bcoeff := (set_bcoeff (T:=R)).
Local Notation init :=
  (@init R 0).
Local Notation outcome := (outcome R).
Local Notation M := (M R).
Local Notation ret := (ret (T:=R)).
Local Notation bind := (bind (T:=R)).
Local Notation self := (self (T:=R)).
Local Notation assign := (assign (T:=R)).
Local Notation numpy := (numpy (T:=R)).
Local Notation final_state := (final_state (T:=R)).
Local Notation returned := (returned (T:=R)).
Local Notation for_ := (for_ (T:=R)).
Local Notation val :=
  (@val R norm).
Local Notation edown_of := (edown_of (T:=R)).
Local Notation sep_of := (sep_of (T:=R)).
Local Notation dist_ions :=
  (@dist_ions R dist_i).
Local Notation dist_rows :=
  (@dist_rows R dist_i).
Local Notation a_values :=
  (@a_values R 0 norm).
Local Notation _a_update :=
  (@_a_update R 0 norm dist_i).
Local Notation dist_others :=
  (@dist_others R dist_i).
Local Notation b_sums :=
  (@b_sums R +%R 0 norm).
Local Notation _b_update :=
  (@_b_update R +%R 0 norm dist_i).
Local Notation b_contract :=
  (@b_contract R +%R *%R 0).
Local Notation a_contract :=
  (@a_contract R +%R *%R 0).
Local Notation a_delta_contract :=
  (@a_delta_contract R +%R *%R 0).
Local Notation b_delta_contract :=
  (@b_delta_contract R +%R *%R 0).
Local Notation sub2 :=
  (@sub2 R (fun x y => x - y)).
Local Notation value :=
  (@value R +%R *%R 0 1).
Local Notation testvalue :=
  (@testvalue R +%R (fun x y => x - y) *%R 0 exp norm dist_i).
Local Notation Pgradient := (Pgradient R).
Local Notation pgradient := (pgradient (T:=R)).
Local Notation add_slot3 :=
  (@add_slot3 R +%R).
Local Notation add_slice2 :=
  (@add_slice2 R +%R).
Local Notation add_col :=
  (@add_col R +%R).
Local Notation set_cols := (set_cols (T:=R)).
Local Notation bdiffT :=
  (@bdiffT R (fun x y => x - y) 0 norm).
Local Notation cross_row :=
  (@cross_row R +%R (fun x y => x - y) 0 norm).
Local Notation own_row :=
  (@own_row R +%R 0 norm).
Local Notation loop_b_partial :=
  (@loop_b_partial R +%R (fun x y => x - y) 0 norm).
Local Notation _update_b_partial :=
  (@_update_b_partial R +%R (fun x y => x - y) 0 norm dist_i).
Local Notation updateinternals :=
  (@updateinternals R +%R (fun x y => x - y) 0 norm dist_i).
Local Notation recompute_partials :=
  (@recompute_partials R +%R 0 norm dist_i).
Local Notation bvalues_of :=
  (@bvalues_of R +%R 0 norm dist_i).
Local Notation avalues_of :=
  (@avalues_of R +%R 0 norm).
Local Notation recompute :=
  (@recompute R +%R *%R 0 1 norm dist_i).
Local Notation dist_new :=
  (@dist_new R dist_i).
Local Notation grad_of :=
  (@grad_of R norm).
Local Notation gl_of :=
  (@gl_of R norm).
Local Notation gradient :=
  (@gradient R +%R *%R 0 norm dist_i).
Local Notation sumsq :=
  (@sumsq R +%R *%R 0).
Local Notation gradient_laplacian :=
  (@gradient_laplacian R +%R *%R 0 norm dist_i).
Local Notation laplacian :=
  (@laplacian R +%R *%R 0 norm dist_i).
Local Notation recompute_path :=
  (@recompute_path R +%R *%R 0 1 norm dist_i).
Local Notation move_all :=
  (@move_all R +%R (fun x y => x - y) 0 norm dist_i).
Local Notation incremental_path :=
  (@incremental_path R +%R (fun x y => x - y) *%R 0 1 norm dist_i).

(** ** Bound instances *)

(** [rows] is a rectangular array of shape [(n1, n2)]. *)
Definition has_shape (T : Type) (n1 n2 : nat) (rows : seq (seq T)) : bool :=
  (size rows == n1) && all (fun r => size r == n2) rows.

Definition wf_configs (c : Configs) : bool :=
  has_shape (shape c).1 (shape c).2 (configs c).

(** The shapes of an instance bound to an ensemble by [recompute]: the
    snapshot holds [_nelec = nup + ndown] electrons per walker, and the
    caches have the shapes that lines 68-71 give them. *)
Definition bound (s : JastrowSpin) : bool :=
  let c := _configscurrent s in
  [&& wf_configs c,
      _nelec s == (shape c).2,
      ((nelec (_mol s)).1 + (nelec (_mol s)).2 == _nelec s)%N,
      size (_avalues s) == (shape c).1,
      size (_bvalues s) == (shape c).1,
      has_shape (shape c).2 (shape c).1 (_a_partial s)
    & has_shape (shape c).2 (shape c).1 (_b_partial s)].

(** The walker count of the bound snapshot. *)
Definition nconf_of (s : JastrowSpin) : nat := (shape (_configscurrent s)).1.

(** The other electrons of the walkers that [m] selects: lines 159-160. *)
Definition others_of (s : JastrowSpin) (e : nat) (m : bitseq)
  : seq (seq vec3) :=
  [seq mask (arange_neq (_nelec s) e) r
  | r <- mask m (configs (_configscurrent s))].

(** The mask, the proposed positions and the electron index fit the bound
    instance. *)
Definition fits (s : JastrowSpin) (e : nat) (epos : Epos) (m : bitseq) : bool :=
  [&& size m == size epos, size m == nconf_of s & e < _nelec s].

(** The instance after [updateinternals(e, epos, mask=m)]. *)
Definition after_update (s : JastrowSpin) (e : nat) (epos : Epos) (m : bitseq)
  : JastrowSpin :=
  final_state (updateinternals e epos (Some m) s).

(** The cells of walker [w]: its positions, and its entries in the four
    caches. *)
Definition row_of (s : JastrowSpin) (w : nat) : seq vec3 :=
  nth [::] (configs (_configscurrent s)) w.
Definition pos_of (s : JastrowSpin) (w e : nat) : vec3 := nth v0 (row_of s w) e.
Definition av_of (s : JastrowSpin) (w : nat) : cell3 :=
  nth zeros3 (_avalues s) w.
Definition bv_of (s : JastrowSpin) (w : nat) : cell2 :=
  nth zeros2 (_bvalues s) w.
Definition ap_of (s : JastrowSpin) (e w : nat) : cell2 :=
  nth zeros2 (nth [::] (_a_partial s) e) w.
Definition bp_of (s : JastrowSpin) (e w : nat) : cell2 :=
  nth zeros2 (nth [::] (_b_partial s) e) w.

(** The separations of a position [p] from the electrons of walker [w]
    other than [e]. *)
Definition dist_not_e (s : JastrowSpin) (e w : nat) (p : vec3) : seq vec3 :=
  [seq dist_i c p | c <- mask (arange_neq (_nelec s) e) (row_of s w)].

Arguments others_of : simpl never.
Arguments dist_not_e : simpl never.

(** The log value that [value] returns for the cached sums. *)
Definition logvalue (s : JastrowSpin) : seq R :=
  [seq x.1 + a_contract s x.2
  | x <- zip [seq b_contract s bv | bv <- _bvalues s] (_avalues s)].

(** The exponent of [testvalue] for one walker, from the proposed position
    [p] of electron [e]. *)
Definition delta_u (s : JastrowSpin) (e w : nat) (p : vec3) : R :=
  b_delta_contract s (edown_of s e)
    (sub2 (b_sums s (sep_of s e) (dist_not_e s e w p)) (bp_of s e w))
  + a_delta_contract s (edown_of s e)
      (sub2 (a_values s (dist_ions s p)) (ap_of s e w)).

(** A computation that leaves the instance as it finds it, whether it
    returns or raises. *)
Definition readonly (A : Type) (c : M A) : Prop :=
  forall s, final_state (c s) = s.

(** A coefficient tensor with [t] added to one entry. *)
Definition bump2 (c : cell2) (l0 c0 : nat) (t : R) : cell2 :=
  fun l c' => if (l == l0) && (c' == c0) then c l c' + t else c l c'.
Definition bump3 (c : cell3) (I0 k0 s0 : nat) (t : R) : cell3 :=
  fun I k sp =>
    if [&& I == I0, k == k0 & sp == s0] then c I k sp + t else c I k sp.

(** The instance after [recompute(cfg)]. *)
Definition after_recompute (s : JastrowSpin) (cfg : Configs) : JastrowSpin :=
  final_state (recompute cfg s).

(** [recompute] accepts an ensemble of well-formed shape that holds the
    [nup + ndown] electrons of the molecule (line 41). *)
Definition accepts (s : JastrowSpin) (cfg : Configs) : bool :=
  [&& wf_configs cfg, (shape cfg).2 == _nelec s
    & ((nelec (_mol s)).1 + (nelec (_mol s)).2 == _nelec s)%N].

(** What one iteration of the loop of lines 73-76 stores for electron [e],
    with the array expressions of [_a_update] and [_b_update] read on the
    instance [t0]. *)
Definition loop_step (t0 : JastrowSpin) (cfg : Configs) (t : JastrowSpin)
  (e : nat) : JastrowSpin :=
  let notmask := nseq (shape cfg).1 true in
  let epos := electron cfg e in
  let ap := [seq a_values t0 dw
            | dw <- [seq dist_ions t0 v | v <- mask notmask epos]] in
  let bp := [seq b_sums t0 (sep_of t0 e) dw
            | dw <- dist_rows (others_of t0 e notmask) (mask notmask epos)] in
  set_b_partial (set_nth [::] (_b_partial t) e bp)
    (set_a_partial (set_nth [::] (_a_partial t) e ap) t).

(** Two instances with the same bases, coefficients, molecule and bound
    snapshot. *)
Definition same_inputs (t t0 : JastrowSpin) : Prop :=
  [/\ a_basis t = a_basis t0, b_basis t = b_basis t0, acoeff t = acoeff t0,
      bcoeff t = bcoeff t0 & _nelec t = _nelec t0]
  /\ [/\ _mol t = _mol t0 & _configscurrent t = _configscurrent t0].

(** The values of the basis functions in the bound snapshot: [a_k] between
    electron [e] and ion [I], and [b_l] between the electrons [i] and [j],
    in walker [w]. *)
Definition ionval (s : JastrowSpin) (w I k e : nat) : R :=
  a_values s (dist_ions s (pos_of s w e)) I k.
Definition pairval (s : JastrowSpin) (w l i j : nat) : R :=
  val (nth f0 (b_basis s) l) (dist_i (pos_of s w j) (pos_of s w i)).

(** The caches of walker [w] mirror the bound snapshot.  The spin index of
    electron [j] is [edown_of s j]; the channel of a pair is the sum of its
    two spin indices (0 up-up, 1 up-down, 2 down-down). *)
Definition ap_ok (s : JastrowSpin) (w : nat) : Prop :=
  forall e I k, e < _nelec s -> ap_of s e w I k = ionval s w I k e.
Definition av_ok (s : JastrowSpin) (w : nat) : Prop :=
  forall I k sp, sp < 2 ->
    av_of s w I k sp =
    \sum_(0 <= e < _nelec s | edown_of s e == sp) ap_of s e w I k.
Definition bp_ok (s : JastrowSpin) (w : nat) : Prop :=
  forall e l sp, e < _nelec s -> l < size (b_basis s) -> sp < 2 ->
    bp_of s e w l sp =
    \sum_(0 <= j < _nelec s | (j != e) && (edown_of s j == sp))
       pairval s w l e j.
Definition bv_ok (s : JastrowSpin) (w : nat) : Prop :=
  forall l c, l < size (b_basis s) -> c < 3 ->
    bv_of s w l c =
    \sum_(0 <= i < _nelec s)
      \sum_(0 <= j < _nelec s
           | (i < j) && (edown_of s i + edown_of s j == c)%N)
         pairval s w l i j.
Definition mirrors (s : JastrowSpin) : Prop :=
  forall w, w < nconf_of s ->
    [/\ ap_ok s w, av_ok s w, bp_ok s w & bv_ok s w].

(** The basis functions of the two-body term are even in the separation:
    the value at the separation from [y] to [x] is the value at the
    separation from [x] to [y]. *)
Definition b_even (s : JastrowSpin) : Prop :=
  forall l x y, l < size (b_basis s) ->
    val (nth f0 (b_basis s) l) (dist_i x y) =
    val (nth f0 (b_basis s) l) (dist_i y x).

(** The invariants of the caches of walker [w] as sums over electron
    indices: the up electrons are [0 .. nup - 1] and the down electrons are
    [nup .. _nelec - 1].  [I1]: a cell of [_avalues] is the sum of the cells of
    [_a_partial] over the electrons of its spin.  [I2]: a same-spin channel
    of [_bvalues] is the sum over the pairs [i < j] of that spin, each pair
    once, and channel 1 is the sum over all pairs of an up and a down
    electron.  [I3]: a cell of [_b_partial] of electron [e] is the sum over
    the electrons of one spin other than [e]. *)
Definition I1 (s : JastrowSpin) (w : nat) : Prop :=
  let nup := (nelec (_mol s)).1 in
  forall I k,
    av_of s w I k 0%N = \sum_(0 <= e < nup) ap_of s e w I k /\
    av_of s w I k 1%N = \sum_(nup <= e < _nelec s) ap_of s e w I k.
Definition I2 (s : JastrowSpin) (w : nat) : Prop :=
  let nup := (nelec (_mol s)).1 in
  forall l, l < size (b_basis s) ->
    [/\ bv_of s w l 0%N =
        \sum_(0 <= i < nup) \sum_(i.+1 <= j < nup) pairval s w l i j,
        bv_of s w l 1%N =
        \sum_(0 <= i < nup) \sum_(nup <= j < _nelec s) pairval s w l i j
      & bv_of s w l 2%N =
        \sum_(nup <= i < _nelec s) \sum_(i.+1 <= j < _nelec s)
           pairval s w l i j].
Definition I3 (s : JastrowSpin) (w : nat) : Prop :=
  let nup := (nelec (_mol s)).1 in
  forall e l, e < _nelec s -> l < size (b_basis s) ->
    bp_of s e w l 0%N = \sum_(0 <= j < nup | j != e) pairval s w l e j /\
    bp_of s e w l 1%N = \sum_(nup <= j < _nelec s | j != e) pairval s w l e j.

(** The instances that a run of the driver goes through: an instance bound
    by [recompute] to an ensemble it accepts, then any number of calls of
    [updateinternals], with or without a mask, returning or raising. *)
Inductive reachable : JastrowSpin -> Prop :=
  | reach_recompute s cfg :
      accepts s cfg -> reachable (after_recompute s cfg)
  | reach_update s e epos mask :
      reachable s -> reachable (final_state (updateinternals e epos mask s)).

(** The instance after committing to all walkers the position that
    electron [e] has in [cfg]. *)
Definition commit (cfg : Configs) (t : JastrowSpin) (e : nat) : JastrowSpin :=
  after_update t e (electron cfg e) (nseq (nconf_of t) true).

(** Two instances of one model: the same bases, coefficients, electron
    count and molecule. *)
Definition same_model (t s : JastrowSpin) : Prop :=
  [/\ a_basis t = a_basis s, b_basis t = b_basis s, acoeff t = acoeff s,
      bcoeff t = bcoeff s & _nelec t = _nelec s] /\ _mol t = _mol s.

(** The derivatives of the exponent [U] of walker [w] with respect to the
    position of electron [e], at the position [p], written from the formula
    of [U] and not from the methods.  [sp] is the spin of [e], 0 for an up
    and 1 for a down electron, and the up electrons are [0 .. nup - 1].  The
    one-body terms run over the ions, with the coefficient of the spin of
    [e].  The two-body terms run over the electrons [j] other than [e]: the
    up ones with the coefficient of channel [sp] and the down ones with that
    of channel [1 + sp], the channels that such a pair makes.  [D] is the
    derivative of a basis function that is summed. *)
Definition coord (v : vec3) (k : nat) : R := nth 0 [:: v.1.1; v.1.2; v.2] k.
Definition ion_sep (s : JastrowSpin) (I : nat) (p : vec3) : vec3 :=
  nth v0 [seq dist_i c p | c <- atom_coords (_mol s)] I.
Definition one_body (s : JastrowSpin) (e : nat) (p : vec3)
  (D : func3d -> vec3 -> R) : R :=
  let sp : nat := ((nelec (_mol s)).1 <= e)%N in
  \sum_(i < size (a_basis s)) \sum_(I < natm (_mol s))
     acoeff s I i sp * D (nth f0 (a_basis s) i) (ion_sep s I p).
Definition two_body (s : JastrowSpin) (e w : nat) (p : vec3)
  (D : func3d -> vec3 -> R) : R :=
  let nup := (nelec (_mol s)).1 in
  let sp : nat := (nup <= e)%N in
  \sum_(l < size (b_basis s))
     (bcoeff s l sp
        * (\sum_(0 <= j < nup | j != e)
             D (nth f0 (b_basis s) l) (dist_i (pos_of s w j) p))
      + bcoeff s l (1 + sp)%N
        * (\sum_(nup <= j < _nelec s | j != e)
             D (nth f0 (b_basis s) l) (dist_i (pos_of s w j) p))).

(** Component [k] of the first and of the second derivatives that the
    [gradient_laplacian] of a basis function returns at the separation [d],
    and of the gradient that its [gradient] returns. *)
Definition d1 (f : func3d) (d : vec3) (k : nat) : R :=
  coord (fn_gradient_laplacian f d (norm d)).1 k.
Definition d2 (f : func3d) (d : vec3) (k : nat) : R :=
  coord (fn_gradient_laplacian f d (norm d)).2 k.
Definition dg (f : func3d) (d : vec3) (k : nat) : R :=
  coord (fn_gradient f d (norm d)) k.

(** Component [k] of the gradient of [U], and the Laplacian of [U]: the sum
    of the second derivatives in the three directions. *)
Definition gradU (s : JastrowSpin) (e w : nat) (p : vec3) (k : nat) : R :=
  one_body s e p (fun f d => d1 f d k)
  + two_body s e w p (fun f d => d1 f d k).
Definition lapU (s : JastrowSpin) (e w : nat) (p : vec3) : R :=
  (let sp : nat := ((nelec (_mol s)).1 <= e)%N in
   \sum_(i < size (a_basis s)) \sum_(I < natm (_mol s)) \sum_(k < 3)
      acoeff s I i sp * d2 (nth f0 (a_basis s) i) (ion_sep s I p) k)
  + two_body s e w p (fun f d => \sum_(k < 3) d2 f d k).

(** The squared norm of a vector of three components. *)
Definition sqnorm (g : nat -> R) : R := g 0%N ^+ 2 + g 1%N ^+ 2 + g 2%N ^+ 2.

(** Two instances with the same cached sums, the same coefficient tensors
    and the same extents of the contracted axes; their basis functions, their
    partial sums and their snapshots may differ. *)
Definition same_caches (s t : JastrowSpin) : Prop :=
  [/\ _avalues t = _avalues s, _bvalues t = _bvalues s,
      acoeff t = acoeff s, bcoeff t = bcoeff s
    & [/\ natm (_mol t) = natm (_mol s), size (a_basis t) = size (a_basis s)
        & size (b_basis t) = size (b_basis s)]].

(** The [gradient_laplacian] of a basis function carries, as its first
    output, the gradient that its [gradient] returns. *)
Definition carries_gradient (f : func3d) : Prop :=
  forall d, (fn_gradient_laplacian f d (norm d)).1 = fn_gradient f d (norm d).

(** ** Facts on the index operations *)

Section NumpyFacts.
Variable T : Type.
Implicit Types (m : bitseq) (xs vs : seq T).

Lemma size_scatter m xs vs : size (scatter m xs vs) = size xs.
Proof.
elim: m xs vs => [|b m IH] [|x xs] vs //=.
by case: b => /=; rewrite IH.
Qed.

(** A cell outside the mask keeps its content. *)
Lemma nth_scatter_false x0 m xs vs w :
  nth false m w = false -> nth x0 (scatter m xs vs) w = nth x0 xs w.
Proof.
elim: m xs vs w => [|b m IH] [|x xs] vs [|w] //=; case: b => //= H; exact: IH.
Qed.

Lemma rank_cons b m w : rank (b :: m) w.+1 = (b + rank m w)%N.
Proof. by []. Qed.

Lemma rank_lt m w : nth false m w -> rank m w < count id m.
Proof.
elim: m w => [|b m IH] [|w] //=; first by case: b.
by move=> /IH H; rewrite rank_cons ltn_add2l.
Qed.

(** A cell inside the mask receives the value of its rank. *)
Lemma nth_scatter_true x0 m xs vs w :
  size m = size xs -> size vs = count id m -> nth false m w ->
  nth x0 (scatter m xs vs) w = nth x0 vs (rank m w).
Proof.
elim: m xs vs w => [|b m IH] [|x xs] vs [|w] //=.
- by case: b vs => // -[|v vs].
- case: b vs => [[|v vs]|vs] //= [sz] Hv Hw; rewrite /rank /= ?add0n.
  + by apply: IH => //; case: Hv.
  + exact: IH.
Qed.

Lemma nth_mask_rank x0 m xs w :
  size m = size xs -> nth false m w ->
  nth x0 (mask m xs) (rank m w) = nth x0 xs w.
Proof.
elim: m xs w => [|b m IH] [|x xs] [|w] //=; first by case: b.
case: b => [] [sz] Hw; rewrite /rank /= ?add0n; exact: IH.
Qed.

Lemma bool_index_ok m xs :
  size m = size xs -> bool_index m xs = Some (mask m xs).
Proof. by rewrite /bool_index => ->; rewrite eqxx. Qed.

Lemma bool_index_bad m xs : size m != size xs -> bool_index m xs = None.
Proof. by rewrite /bool_index => /negbTE ->. Qed.

Lemma count_nseq_true n : count id (nseq n true) = n.
Proof. by elim: n => //= n ->. Qed.

(** [xs[m] = f(xs[m], us)] cell by cell. *)
Lemma nth_scatter_zip (U : Type) (f : T -> U -> T) x0 u0 m xs (us : seq U) w :
  size m = size xs -> size us = count id m ->
  nth x0 (scatter m xs [seq f x.1 x.2 | x <- zip (mask m xs) us]) w =
  if nth false m w then f (nth x0 xs w) (nth u0 us (rank m w))
  else nth x0 xs w.
Proof.
move=> sm su; case: ifP => [Hw|Hw]; last exact: nth_scatter_false.
have szz : size (zip (mask m xs) us) = count id m.
  by rewrite size_zip size_mask // su minnn.
rewrite nth_scatter_true ?size_map //.
rewrite (nth_map (x0, u0)) ?szz ?rank_lt // nth_zip ?size_mask ?su //=.
by rewrite nth_mask_rank.
Qed.

Lemma nth_transpose (x0 : T) n (rows : seq (seq T)) j i :
  j < n -> i < size rows ->
  nth x0 (nth [::] (transpose x0 n rows) j) i = nth x0 (nth [::] rows i) j.
Proof.
move=> Hj Hi; rewrite /transpose (nth_map 0%N) ?size_iota // nth_iota //.
by rewrite add0n (nth_map [::]).
Qed.

End NumpyFacts.

Lemma nth_arange_neq n e j : j < n -> nth false (arange_neq n e) j = (j != e).
Proof.
by move=> Hj; rewrite /arange_neq (nth_map 0%N) ?size_iota // nth_iota.
Qed.

(** ** Running the methods on a bound instance *)

Lemma has_shapeP (T : Type) (n1 n2 : nat) (rows : seq (seq T)) :
  has_shape n1 n2 rows ->
  size rows = n1 /\ forall i, i < n1 -> size (nth [::] rows i) = n2.
Proof.
case/andP => /eqP sz /all_nthP H; split=> // i Hi.
by apply/eqP/H; rewrite sz.
Qed.

Lemma size_arange_neq n e : size (arange_neq n e) = n.
Proof. by rewrite /arange_neq size_map size_iota. Qed.

Lemma boundP s :
  bound s ->
  let c := _configscurrent s in
  [/\ size (configs c) = nconf_of s,
      forall w, w < nconf_of s -> size (nth [::] (configs c) w) = _nelec s,
      (shape c).2 = _nelec s,
      ((nelec (_mol s)).1 + (nelec (_mol s)).2)%N = _nelec s
    & [/\ size (_avalues s) = nconf_of s, size (_bvalues s) = nconf_of s,
          has_shape (_nelec s) (nconf_of s) (_a_partial s)
        & has_shape (_nelec s) (nconf_of s) (_b_partial s)]].
Proof.
rewrite /nconf_of.
case/and5P => /has_shapeP [szc rowc] /eqP Hne /eqP Hnup /eqP sza.
case/and3P => /eqP szb Hap Hbp /=.
by rewrite -Hne in rowc Hap Hbp *; split.
Qed.

Lemma _a_update_run e epos m s :
  size m = size epos ->
  _a_update e epos m s =
  Return [seq a_values s dw | dw <- [seq dist_ions s v | v <- mask m epos]] s.
Proof. by move=> H; rewrite /_a_update /bind /self /numpy bool_index_ok. Qed.

Lemma _a_update_raise e epos m s :
  size m != size epos -> _a_update e epos m s = Raise s.
Proof. by move=> H; rewrite /_a_update /bind /self /numpy bool_index_bad. Qed.

Lemma dist_others_run e epos m s :
  bound s -> size m = size epos -> size m = nconf_of s ->
  dist_others e epos m s =
  Return (dist_rows (others_of s e m) (mask m epos)) s.
Proof.
move=> /boundP [szc _ Hne _ _] me mc.
rewrite /dist_others /bind /self /numpy bool_index_ok ?szc //.
by rewrite /bool_index_axis1 size_arange_neq Hne eqxx bool_index_ok.
Qed.

Lemma dist_others_raise e epos m s :
  bound s -> size m != nconf_of s -> dist_others e epos m s = Raise s.
Proof.
move=> /boundP [szc _ Hne _ _] mc.
by rewrite /dist_others /bind /self /numpy bool_index_bad ?szc.
Qed.

Lemma _b_update_run e epos m s :
  bound s -> size m = size epos -> size m = nconf_of s ->
  _b_update e epos m s =
  Return [seq b_sums s (sep_of s e) dw
         | dw <- dist_rows (others_of s e m) (mask m epos)] s.
Proof.
by move=> bs me mc; rewrite /_b_update /bind /self dist_others_run.
Qed.

Lemma _b_update_raise e epos m s :
  bound s -> size m != nconf_of s -> _b_update e epos m s = Raise s.
Proof.
by move=> bs mc; rewrite /_b_update /bind /self dist_others_raise.
Qed.

Lemma _update_b_partial_run e epos m s :
  bound s -> size m = size epos -> size m = nconf_of s -> e < _nelec s ->
  _update_b_partial e epos m s =
  Return tt
    (set_b_partial
       (loop_b_partial s e m
          (dist_rows (others_of s e m) (mask m epos))
          (dist_rows (others_of s e m)
             [seq nth v0 r e | r <- mask m (configs (_configscurrent s))]))
       s).
Proof.
move=> bs me mc He; rewrite /_update_b_partial /bind /self dist_others_run //.
case/boundP: bs => szc _ Hne _ _.
rewrite /numpy bool_index_ok ?szc //.
by rewrite /bool_index_axis1 /int_index_axis1 size_arange_neq Hne eqxx He.
Qed.

Lemma has_shape_set_nth (T : Type) (n1 n2 e : nat) (rows : seq (seq T)) r :
  has_shape n1 n2 rows -> e < n1 -> size r = n2 ->
  has_shape n1 n2 (set_nth [::] rows e r).
Proof.
case/andP=> /eqP sz /all_nthP H He Hr; apply/andP; split.
  by rewrite size_set_nth sz; apply/eqP/maxn_idPr.
apply/(all_nthP [::]) => i; rewrite size_set_nth sz (maxn_idPr He) => Hi.
rewrite nth_set_nth /=; case: ifP => _; first by rewrite Hr.
by apply: H; rewrite sz.
Qed.

(** The three arrays that lines 121-125 compute and store. *)
Lemma updateinternals_run s e epos m :
  bound s -> fits s e epos m ->
  let aupdate :=
    [seq a_values s dw | dw <- [seq dist_ions s v | v <- mask m epos]] in
  let bupdate :=
    [seq b_sums s (sep_of s e) dw
    | dw <- dist_rows (others_of s e m) (mask m epos)] in
  let av :=
    scatter m (_avalues s)
      [seq add_slot3 (edown_of s e) x.1 (sub2 x.2.1 x.2.2)
      | x <- zip (mask m (_avalues s))
               (zip aupdate (mask m (nth [::] (_a_partial s) e)))] in
  let bv :=
    scatter m (_bvalues s)
      [seq add_slice2 (edown_of s e) x.1 (sub2 x.2.1 x.2.2)
      | x <- zip (mask m (_bvalues s))
               (zip bupdate (mask m (nth [::] (_b_partial s) e)))] in
  let ap :=
    set_nth [::] (_a_partial s) e
      (scatter m (nth [::] (_a_partial s) e) aupdate) in
  let bp :=
    loop_b_partial s e m
      (dist_rows (others_of s e m) (mask m epos))
      (dist_rows (others_of s e m)
         [seq nth v0 r e | r <- mask m (configs (_configscurrent s))]) in
  updateinternals e epos (Some m) s =
  Return tt
    (MkJastrowSpin (a_basis s) (b_basis s) (acoeff s) (bcoeff s) (_nelec s)
       (_mol s) (move (_configscurrent s) e epos m) av bv ap bp).
Proof.
move=> bs /and3P [/eqP me /eqP mc He] aupdate bupdate av bv ap bp.
have [szc rowc Hne Hnup [sza szb Hap Hbp]] := boundP bs.
have [szap rowap] := has_shapeP Hap; have [szbp rowbp] := has_shapeP Hbp.
rewrite /updateinternals /bind /self _a_update_run // _b_update_run //.
rewrite /numpy bool_index_ok ?sza //= /int_index szap He.
rewrite bool_index_ok ?rowap //= bool_index_ok ?szb //= szbp He.
rewrite bool_index_ok ?rowbp //= _update_b_partial_run //.
rewrite /bound /wf_configs /= -/(nconf_of s) Hne !size_scatter sza szb !eqxx.
rewrite Hnup eqxx Hbp /= andbT.
have -> : has_shape (nconf_of s) (_nelec s) (configs (_configscurrent s)).
  by case/andP: bs; rewrite /wf_configs Hne.
by apply: has_shape_set_nth => //; rewrite size_scatter rowap.
Qed.

(** A mask, a position array or an electron index that does not fit makes
    the call raise before any cache is written. *)
Lemma updateinternals_raise s e epos m :
  bound s -> ~~ fits s e epos m ->
  updateinternals e epos (Some m) s = Raise s.
Proof.
move=> bs; have [szc rowc Hne Hnup [sza szb Hap Hbp]] := boundP bs.
have [szap rowap] := has_shapeP Hap.
rewrite /fits /updateinternals /bind /self.
have [/eqP me|me] /= := boolP (size m == size epos); last first.
  by rewrite _a_update_raise.
rewrite _a_update_run //.
have [/eqP mc|mc] /= := boolP (size m == nconf_of s); last first.
  by rewrite _b_update_raise.
move=> He; rewrite _b_update_run // /numpy bool_index_ok ?sza //=.
by rewrite /int_index szap (negbTE He).
Qed.

Lemma updateinternals_spec s e epos m :
  bound s ->
  updateinternals e epos (Some m) s =
  if fits s e epos m then Return tt (after_update s e epos m) else Raise s.
Proof.
move=> bs; case: ifP => [Hf|/negbT Hf]; last exact: updateinternals_raise.
by rewrite /after_update updateinternals_run.
Qed.

Lemma size_loop_b_partial s e m d dold :
  e < size (_b_partial s) ->
  size (loop_b_partial s e m d dold) = size (_b_partial s).
Proof.
move=> He; rewrite /loop_b_partial size_set_nth size_scatter.
exact/maxn_idPr.
Qed.

(** ** The instance after an update, walker by walker *)

Section AfterUpdate.
Variables (s : JastrowSpin) (e : nat) (epos : Epos) (m : bitseq).
Hypothesis bs : bound s.
Hypothesis Hf : fits s e epos m.
Let s' := after_update s e epos m.

Lemma after_updateE :
  s' = final_state (updateinternals e epos (Some m) s).
Proof. by []. Qed.

Lemma after_static :
  [/\ a_basis s' = a_basis s, b_basis s' = b_basis s, acoeff s' = acoeff s,
      bcoeff s' = bcoeff s & _nelec s' = _nelec s] /\
  [/\ _mol s' = _mol s & shape (_configscurrent s') = shape (_configscurrent s)].
Proof. by rewrite /s' /after_update updateinternals_run. Qed.

Lemma after_av w :
  av_of s' w =
  if nth false m w then
    add_slot3 (edown_of s e) (av_of s w)
      (sub2 (a_values s (dist_ions s (nth v0 epos w))) (ap_of s e w))
  else av_of s w.
Proof.
have [szc rowc Hne Hnup [sza szb Hap Hbp]] := boundP bs.
have [szap rowap] := has_shapeP Hap.
case/and3P: Hf => /eqP me /eqP mc He.
rewrite /av_of /s' /after_update updateinternals_run //=.
have sa : size (mask m epos) = count id m by rewrite size_mask.
rewrite (nth_scatter_zip
  (fun a b => add_slot3 (edown_of s e) a (sub2 b.1 b.2)) _ (zeros2, zeros2))
  ?sza //; first by rewrite size_zip !size_map sa size_mask ?rowap // minnn.
case: ifP => // Hw; congr add_slot3.
rewrite nth_zip ?size_map ?sa ?size_mask ?rowap //=.
rewrite (nth_map [::]) ?size_map ?sa ?rank_lt // (nth_map v0) ?sa ?rank_lt //.
by rewrite !nth_mask_rank ?rowap.
Qed.

Lemma size_others : size (others_of s e m) = count id m.
Proof.
have [szc _ _ _ _] := boundP bs; case/and3P: Hf => _ /eqP mc _.
by rewrite /others_of size_map size_mask ?szc.
Qed.

Lemma nth_dist_rows w (vs : seq vec3) :
  size m = size vs -> nth false m w ->
  nth [::] (dist_rows (others_of s e m) (mask m vs)) (rank m w) =
  dist_not_e s e w (nth v0 vs w).
Proof.
have [szc _ _ _ _] := boundP bs; case/and3P: Hf => _ /eqP mc _.
move=> sv Hw; have sm : size (mask m vs) = count id m by rewrite size_mask.
have sz : size (zip (others_of s e m) (mask m vs)) = count id m.
  by rewrite size_zip size_others sm minnn.
rewrite /dist_rows (nth_map ([::], v0)) ?sz ?rank_lt //.
rewrite nth_zip ?size_others ?sm //= nth_mask_rank // /others_of.
by rewrite (nth_map [::]) ?size_mask ?szc ?rank_lt // nth_mask_rank ?szc.
Qed.

Lemma size_dist_rows (vs : seq vec3) :
  size m = size vs ->
  size (dist_rows (others_of s e m) (mask m vs)) = count id m.
Proof.
by move=> sv; rewrite /dist_rows size_map size_zip size_others size_mask ?minnn.
Qed.

Lemma after_bv w :
  bv_of s' w =
  if nth false m w then
    add_slice2 (edown_of s e) (bv_of s w)
      (sub2 (b_sums s (sep_of s e) (dist_not_e s e w (nth v0 epos w)))
         (bp_of s e w))
  else bv_of s w.
Proof.
have [szc rowc Hne Hnup [sza szb Hap Hbp]] := boundP bs.
have [szbp rowbp] := has_shapeP Hbp.
case/and3P: (Hf) => /eqP me /eqP mc He.
rewrite /bv_of /s' /after_update updateinternals_run //=.
set bu := [seq b_sums s _ dw | dw <- _].
have sB : size bu = count id m by rewrite size_map size_dist_rows.
have sP : size (mask m (nth [::] (_b_partial s) e)) = count id m.
  by rewrite size_mask ?rowbp.
rewrite (nth_scatter_zip
  (fun a b => add_slice2 (edown_of s e) a (sub2 b.1 b.2)) _ (zeros2, zeros2))
  ?szb //; first by rewrite size_zip sB sP minnn.
case: ifP => // Hw; congr add_slice2.
rewrite nth_zip ?sB ?sP //= /bu (nth_map [::]) ?size_dist_rows ?rank_lt //.
by rewrite nth_dist_rows // nth_mask_rank ?rowbp.
Qed.

Lemma after_ap o w :
  ap_of s' o w =
  if nth false m w && (o == e) then a_values s (dist_ions s (nth v0 epos w))
  else ap_of s o w.
Proof.
have [szc rowc Hne Hnup [sza szb Hap Hbp]] := boundP bs.
have [szap rowap] := has_shapeP Hap.
case/and3P: (Hf) => /eqP me /eqP mc He.
rewrite /ap_of /s' /after_update updateinternals_run //= nth_set_nth /=.
case: eqP => [->|_]; last by rewrite andbF.
rewrite andbT; case: ifP => Hw; last by rewrite nth_scatter_false.
have sa : size (mask m epos) = count id m by rewrite size_mask.
rewrite nth_scatter_true ?rowap ?size_map //.
rewrite (nth_map [::]) ?size_map ?sa ?rank_lt // (nth_map v0) ?sa ?rank_lt //.
by rewrite nth_mask_rank.
Qed.

Lemma after_row w :
  row_of s' w =
  if nth false m w then set_nth v0 (row_of s w) e (nth v0 epos w)
  else row_of s w.
Proof.
have [szc rowc Hne Hnup _] := boundP bs.
case/and3P: (Hf) => /eqP me /eqP mc He.
rewrite /row_of /s' /after_update updateinternals_run //= /move /=.
rewrite (nth_scatter_zip (fun r x => set_nth v0 r e x) _ v0) ?szc //;
  first by rewrite size_mask.
by case: ifP => // Hw; rewrite nth_mask_rank.
Qed.

Lemma nth_dist_not_e w o p :
  w < nconf_of s -> o < _nelec s -> o != e ->
  nth v0 (dist_not_e s e w p) (rank (arange_neq (_nelec s) e) o) =
  dist_i (pos_of s w o) p.
Proof.
have [szc rowc Hne Hnup _] := boundP bs.
move=> Hw Ho Hoe; have Hno : nth false (arange_neq (_nelec s) e) o.
  by rewrite nth_arange_neq.
have sr : size (arange_neq (_nelec s) e) = size (row_of s w).
  by rewrite size_arange_neq /row_of rowc.
rewrite /dist_not_e (nth_map v0) ?size_mask ?rank_lt //.
by rewrite nth_mask_rank.
Qed.

Lemma size_dist_not_e w p :
  w < nconf_of s ->
  size (dist_not_e s e w p) = count id (arange_neq (_nelec s) e).
Proof.
have [szc rowc Hne Hnup _] := boundP bs.
by move=> Hw; rewrite /dist_not_e size_map size_mask // size_arange_neq rowc.
Qed.

Lemma after_bp o w l sp :
  w < nconf_of s -> o < _nelec s ->
  bp_of s' o w l sp =
  (if nth false m w then
     if o == e then
       set_cols s (b_sums s (sep_of s e) (dist_not_e s e w (nth v0 epos w)))
         (bp_of s e w)
     else
       add_col s (edown_of s e)
         (fun l => val (nth f0 (b_basis s) l)
                     (dist_i (pos_of s w o) (nth v0 epos w))
                   - val (nth f0 (b_basis s) l)
                       (dist_i (pos_of s w o) (pos_of s w e)))
         (bp_of s o w)
   else bp_of s o w) l sp.
Proof.
have [szc rowc Hne Hnup [sza szb Hap Hbp]] := boundP bs.
have [szbp rowbp] := has_shapeP Hbp.
case/and3P: (Hf) => /eqP me /eqP mc He Hw Ho.
rewrite /bp_of /s' /after_update updateinternals_run //= /loop_b_partial.
set not_e := arange_neq (_nelec s) e.
set d := dist_rows _ (mask m epos).
set dold := dist_rows _ _.
have sne : size not_e = size (_b_partial s) by rewrite size_arange_neq szbp.
have sd : size d = count id m by rewrite size_dist_rows.
have Edold : dold = dist_rows (others_of s e m)
    (mask m [seq nth v0 r e | r <- configs (_configscurrent s)]).
  by rewrite /dold map_mask.
have sdold : size dold = count id m.
  by rewrite Edold size_dist_rows // size_map szc.
rewrite nth_set_nth /=.
have bp1e : forall vs, nth [::] (scatter not_e (_b_partial s) vs) e =
    nth [::] (_b_partial s) e.
  by move=> vs; rewrite nth_scatter_false // nth_arange_neq // eqxx.
case: (eqVneq o e) => [->|Hoe].
  rewrite bp1e /own_row (nth_scatter_zip
    (fun c dw => set_cols s (b_sums s (sep_of s e) dw) c) _ [::]) ?rowbp //.
  by case: ifP => // Hmw; rewrite nth_dist_rows.
have Hno : nth false not_e o by rewrite nth_arange_neq.
rewrite (nth_scatter_zip (cross_row s e m d dold) _ 0%N) ?size_iota //.
rewrite Hno nth_iota ?rank_lt // add0n /cross_row.
rewrite (nth_scatter_zip (fun c w' =>
  add_col s (edown_of s e)
    (fun l0 => nth 0 (nth [::] (bdiffT s e d dold l0) (rank not_e o)) w') c)
  _ 0%N) ?size_iota ?rowbp //.
case: ifP => // Hmw; rewrite nth_iota ?rank_lt // add0n /add_col.
case: ifP => // _; congr (_ + _).
have szz : size (zip d dold) = count id m by rewrite size_zip sd sdold minnn.
rewrite /bdiffT nth_transpose ?size_map ?szz ?rank_lt //.
rewrite (nth_map ([::], [::])) ?szz ?rank_lt // nth_zip ?sd ?sdold //=.
rewrite /d nth_dist_rows // Edold nth_dist_rows ?size_map ?szc //.
rewrite (nth_map [::]) ?szc // -/(row_of s w) -/(pos_of s w e).
have szz2 : size (zip (dist_not_e s e w (nth v0 epos w))
                      (dist_not_e s e w (pos_of s w e))) = count id not_e.
  by rewrite size_zip !size_dist_not_e ?minnn.
rewrite (nth_map (v0, v0)) ?szz2 ?rank_lt //.
by rewrite nth_zip ?size_dist_not_e //= !nth_dist_not_e.
Qed.

Lemma after_bound : bound s'.
Proof.
have [szc rowc Hne Hnup [sza szb Hap Hbp]] := boundP bs.
have [szap rowap] := has_shapeP Hap; have [szbp rowbp] := has_shapeP Hbp.
case/and3P: (Hf) => /eqP me /eqP mc He.
rewrite /s' /after_update updateinternals_run //.
rewrite /bound /wf_configs /= -/(nconf_of s) Hne !size_scatter sza szb !eqxx.
rewrite Hnup eqxx /=; apply/and3P; split.
- rewrite /has_shape size_scatter szc eqxx /=.
  apply/(all_nthP [::]) => w; rewrite size_scatter szc => Hw.
  rewrite (nth_scatter_zip (fun r x => set_nth v0 r e x) _ v0) ?szc //;
    first by rewrite size_mask.
  case: ifP => _; rewrite ?size_set_nth -/(row_of s w) rowc //.
  by apply/eqP/maxn_idPr.
- by apply: has_shape_set_nth => //; rewrite size_scatter rowap.
- rewrite /loop_b_partial; apply: has_shape_set_nth => //; last first.
    rewrite size_scatter nth_scatter_false ?rowbp //.
    by rewrite nth_arange_neq // eqxx.
  rewrite /has_shape size_scatter szbp eqxx /=.
  apply/(all_nthP [::]) => o; rewrite size_scatter szbp => Ho.
  rewrite (nth_scatter_zip (cross_row s e m _ _) _ 0%N)
    ?size_arange_neq ?szbp ?size_iota //.
  by case: ifP => _; rewrite ?size_scatter rowbp.
Qed.

End AfterUpdate.

(** ** The log value is linear in the caches *)

Lemma a_contract_add_slot3 s ed av da :
  (ed < 2)%N ->
  a_contract s (add_slot3 ed av da) = a_contract s av + a_delta_contract s ed da.
Proof.
move=> Hed; rewrite /a_contract /a_delta_contract -big_split /=.
apply: eq_bigr => I _; rewrite -big_split /=; apply: eq_bigr => k _.
rewrite !big_ord_recl !big_ord0 /add_slot3 /= !addr0.
by case: ed Hed => [|[|]] //= _; rewrite mulrDl ?addrA // addrAC.
Qed.

Lemma b_contract_add_slice2 s ed bv db :
  (ed < 2)%N ->
  b_contract s (add_slice2 ed bv db) = b_contract s bv + b_delta_contract s ed db.
Proof.
have H0 (a x b y c : R) : a + x + (b + y + c) = a + (b + c) + (x + y).
  by rewrite [b + y + c]addrAC addrACA.
have H1 (a x b y c : R) : a + (b + x + (c + y)) = a + (b + c) + (x + y).
  by rewrite [b + x + (c + y)]addrACA addrA.
move=> Hed; rewrite /b_contract /b_delta_contract -big_split /=.
apply: eq_bigr => l _; rewrite !big_ord_recl !big_ord0 /add_slice2 /= !addr0.
case: ed Hed => [|[|]] //= _; rewrite !mulrDl; [exact: H0 | exact: H1].
Qed.

Lemma edown_lt2 s e : (edown_of s e < 2)%N.
Proof. by rewrite /edown_of; case: ((nelec (_mol s)).1 <= e)%N. Qed.

(** ** [value] and [testvalue] on a bound instance *)

Lemma value_run s : value s = Return (1, logvalue s) s.
Proof. by []. Qed.

Lemma size_logvalue s : bound s -> size (logvalue s) = nconf_of s.
Proof.
case/boundP=> _ _ _ _ [sza szb _ _].
by rewrite /logvalue size_map size_zip size_map sza szb minnn.
Qed.

Lemma nth_logvalue s w :
  bound s -> w < nconf_of s ->
  nth 0 (logvalue s) w = b_contract s (bv_of s w) + a_contract s (av_of s w).
Proof.
case/boundP=> _ _ _ _ [sza szb _ _] Hw.
rewrite /logvalue (nth_map (0, zeros3)) ?size_zip ?size_map ?sza ?szb ?minnn //.
rewrite nth_zip ?size_map ?sza ?szb //=.
by rewrite (nth_map zeros2) ?szb.
Qed.

Lemma testvalue_run s e epos m :
  bound s -> fits s e epos m ->
  exists r,
    [/\ testvalue e epos (Some m) s = Return r s, size r = count id m
      & forall w, nth false m w ->
          nth 0 r (rank m w) = exp (delta_u s e w (nth v0 epos w))].
Proof.
move=> bs Hf; have [szc rowc Hne Hnup [sza szb Hap Hbp]] := boundP bs.
have [szap rowap] := has_shapeP Hap; have [szbp rowbp] := has_shapeP Hbp.
case/and3P: (Hf) => /eqP me /eqP mc He.
rewrite /testvalue /bind /self _a_update_run // /numpy /int_index szap He.
rewrite bool_index_ok ?rowap // _b_update_run // szbp He.
rewrite bool_index_ok ?rowbp //.
set au := [seq a_values s dw | dw <- _].
set bu := [seq b_sums s _ dw | dw <- _].
set apm := mask m (nth [::] (_a_partial s) e).
set bpm := mask m (nth [::] (_b_partial s) e).
have sau : size au = count id m by rewrite !size_map size_mask.
have sbu : size bu = count id m by rewrite size_map (size_dist_rows bs Hf).
have sapm : size apm = count id m by rewrite size_mask ?rowap.
have sbpm : size bpm = count id m by rewrite size_mask ?rowbp.
set bval := [seq b_delta_contract s _ db | db <- _].
set aval := [seq a_delta_contract s _ da | da <- _].
have sbv : size bval = count id m by rewrite !size_map size_zip sbu sbpm minnn.
have sav : size aval = count id m by rewrite !size_map size_zip sau sapm minnn.
exists [seq exp (x.1 + x.2) | x <- zip bval aval]; split=> //.
  by rewrite size_map size_zip sbv sav minnn.
move=> w Hw; have Hr := rank_lt Hw.
rewrite (nth_map (0, 0)) ?size_zip ?sbv ?sav ?minnn // nth_zip ?sbv ?sav //=.
rewrite /bval /aval.
rewrite (nth_map zeros2) ?size_map ?size_zip ?sbu ?sbpm ?minnn //.
rewrite (nth_map (zeros2, zeros2)) ?size_zip ?sbu ?sbpm ?minnn //.
rewrite [in X in _ + X](nth_map zeros2) ?size_map ?size_zip ?sau ?sapm ?minnn //.
rewrite [in X in _ + X](nth_map (zeros2, zeros2)) ?size_zip ?sau ?sapm ?minnn //.
rewrite !nth_zip ?sbu ?sbpm ?sau ?sapm //= /delta_u.
rewrite /bu (nth_map [::]) ?(size_dist_rows bs Hf) // (nth_dist_rows bs Hf) //.
rewrite /au (nth_map [::]) ?size_map ?size_mask // (nth_map v0) ?size_mask //.
by rewrite /apm /bpm !nth_mask_rank ?rowap ?rowbp.
Qed.

Lemma rank_nseq_true n w : w <= n -> rank (nseq n true) w = w.
Proof.
elim: n w => [|n IH] [|w] //= Hw.
by rewrite /rank /= add1n -/(rank (nseq n true) w) IH.
Qed.

Lemma nth_nseq_true n w : w < n -> nth false (nseq n true) w.
Proof. by move=> Hw; rewrite nth_nseq Hw. Qed.

Lemma updateinternals_None s e epos :
  updateinternals e epos None s =
  updateinternals e epos (Some (nseq (nconf_of s) true)) s.
Proof. by []. Qed.

Lemma fits_all s e epos :
  e < _nelec s -> size epos = nconf_of s ->
  fits s e epos (nseq (nconf_of s) true).
Proof. by move=> He se; rewrite /fits size_nseq se !eqxx. Qed.

(** The change of the log value by a committed move, walker by walker. *)
Lemma logvalue_after s e epos m w :
  bound s -> fits s e epos m -> w < nconf_of s ->
  nth 0 (logvalue (after_update s e epos m)) w =
  if nth false m w then nth 0 (logvalue s) w + delta_u s e w (nth v0 epos w)
  else nth 0 (logvalue s) w.
Proof.
move=> bs Hf Hw; have bs' := after_bound bs Hf.
have [[Ha Hb Hac Hbc Hn] [Hm Hs]] := after_static bs Hf.
have Hw' : w < nconf_of (after_update s e epos m) by rewrite /nconf_of Hs.
rewrite !nth_logvalue // after_av // after_bv //.
have Ea av : a_contract (after_update s e epos m) av = a_contract s av.
  by rewrite /a_contract Ha Hac Hm.
have Eb bv : b_contract (after_update s e epos m) bv = b_contract s bv.
  by rewrite /b_contract Hb Hbc.
rewrite Ea Eb; case: ifP => // _.
rewrite a_contract_add_slot3 ?edown_lt2 // b_contract_add_slice2 ?edown_lt2 //.
by rewrite /delta_u addrACA.
Qed.

(** C1.  In exact arithmetic: on a bound instance, for an electron index [e]
    of the ensemble and proposed positions [epos] for its walkers,
    [testvalue(e, epos)] with an all-true mask returns, walker by walker,
    [exp] of the difference between the log value that [value()] returns
    after [updateinternals(e, epos)] and the log value that it returns
    before.  On doubles the two can differ, by the rounding of the cached
    sums. *)
Theorem testvalue_is_exp_of_logvalue_change s e epos :
  bound s -> e < _nelec s -> size epos = nconf_of s ->
  exists r u u' s',
    [/\ testvalue e epos (Some (nseq (nconf_of s) true)) s = Return r s,
        value s = Return (1, u) s,
        updateinternals e epos None s = Return tt s',
        value s' = Return (1, u') s'
      & size r = nconf_of s /\
        forall w, w < nconf_of s -> nth 0 r w = exp (nth 0 u' w - nth 0 u w)].
Proof.
move=> bs He se; have Hf := fits_all He se.
have [r [Hr sr Hnth]] := testvalue_run bs Hf.
exists r, (logvalue s), (logvalue (after_update s e epos (nseq (nconf_of s) true))),
  (after_update s e epos (nseq (nconf_of s) true)); split=> //.
- by rewrite updateinternals_None updateinternals_spec // Hf.
- rewrite sr count_nseq_true; split=> // w Hw.
  have Hmw := nth_nseq_true Hw.
  rewrite logvalue_after // Hmw addrAC subrr add0r.
  by rewrite -[in LHS](rank_nseq_true (ltnW Hw)) Hnth.
Qed.

(** ** Frame properties *)

Lemma readonly_ret (A : Type) (a : A) : readonly (ret a).
Proof. by []. Qed.

Lemma readonly_self : readonly self.
Proof. by []. Qed.

Lemma readonly_numpy (A : Type) (o : option A) : readonly (numpy o).
Proof. by case: o. Qed.

Lemma readonly_bind (A B : Type) (c : M A) (k : A -> M B) :
  readonly c -> (forall a, readonly (k a)) -> readonly (bind c k).
Proof.
move=> Hc Hk s; rewrite /bind; move: (Hc s).
by case: (c s) => [a s1|s1] /= -> //; apply: Hk.
Qed.

Lemma readonly_a_update e epos m : readonly (_a_update e epos m).
Proof.
apply: readonly_bind; first exact: readonly_self.
move=> s; apply: readonly_bind; first exact: readonly_numpy.
by move=> eposm; apply: readonly_ret.
Qed.

Lemma readonly_dist_others e epos m : readonly (dist_others e epos m).
Proof.
apply: readonly_bind; first exact: readonly_self.
move=> s; do 3![apply: readonly_bind; first exact: readonly_numpy; move=> ?].
exact: readonly_ret.
Qed.

Lemma readonly_b_update e epos m : readonly (_b_update e epos m).
Proof.
apply: readonly_bind; first exact: readonly_self.
move=> s; apply: readonly_bind; first exact: readonly_dist_others.
by move=> d; apply: readonly_ret.
Qed.

(** C5.  [testvalue] leaves the instance as it finds it, for every electron
    index, proposed position and mask, given or omitted, and whether it
    returns or raises: the four caches and the bound snapshot after the call
    are those before it. *)
Theorem testvalue_does_not_mutate e epos mask s :
  final_state (testvalue e epos mask s) = s.
Proof.
apply: readonly_bind; first exact: readonly_self.
move=> s1; apply: readonly_bind; first exact: readonly_a_update.
move=> au; do 2![apply: readonly_bind; first exact: readonly_numpy; move=> ?].
apply: readonly_bind; first exact: readonly_b_update.
move=> bu; do 2![apply: readonly_bind; first exact: readonly_numpy; move=> ?].
exact: readonly_ret.
Qed.

(** The loop of [_update_b_partial] writes no cell of a walker outside the
    mask, neither in the row of [e] nor in the rows of the other
    electrons. *)
Lemma unmasked_bp s e epos m w o :
  bound s -> fits s e epos m -> nth false m w = false ->
  bp_of (after_update s e epos m) o w = bp_of s o w.
Proof.
move=> bs Hf Hw; have [_ _ _ _ [_ _ _ Hbp]] := boundP bs.
have [szbp rowbp] := has_shapeP Hbp.
case/and3P: (Hf) => /eqP me /eqP mc He.
rewrite /bp_of /after_update updateinternals_run //= /loop_b_partial.
set not_e := arange_neq (_nelec s) e; set d := dist_rows _ _.
set dold := dist_rows _ _.
rewrite nth_set_nth /=; case: eqP => [->|_].
  rewrite /own_row nth_scatter_false // nth_scatter_false //.
  by rewrite nth_arange_neq // eqxx.
rewrite (nth_scatter_zip (cross_row s e m d dold) _ 0%N)
  ?size_arange_neq ?szbp ?size_iota //.
by case: ifP => // _; rewrite /cross_row nth_scatter_false.
Qed.

(** C4.  On a bound instance, [updateinternals(e, epos, mask=m)] leaves,
    for every walker [w] where the mask is false, the cells of [_avalues],
    [_bvalues], [_a_partial] and [_b_partial] of that walker and its
    positions in the bound snapshot as they were, for every electron index
    and every proposed position, and whether the call returns or raises. *)
Theorem updateinternals_leaves_unmasked_walkers s e epos m w :
  bound s -> nth false m w = false ->
  let s' := final_state (updateinternals e epos (Some m) s) in
  [/\ av_of s' w = av_of s w, bv_of s' w = bv_of s w,
      forall o, ap_of s' o w = ap_of s o w,
      forall o, bp_of s' o w = bp_of s o w
    & row_of s' w = row_of s w].
Proof.
move=> bs Hw /=; rewrite updateinternals_spec //.
case: ifP => // Hf; rewrite -/(after_update s e epos m).
split; rewrite ?after_av ?after_bv ?after_row ?Hw // => o.
  by rewrite after_ap // Hw.
exact: unmasked_bp.
Qed.

(** C9.  On a bound instance, [updateinternals] with a mask whose length
    differs from the walker count of the bound snapshot raises, and the
    instance is then as it was before the call: no cache has been written. *)
Theorem updateinternals_mask_length_mismatch_raises s e epos m :
  bound s -> size m != nconf_of s ->
  updateinternals e epos (Some m) s = Raise s.
Proof.
move=> bs Hm; apply: updateinternals_raise => //.
by rewrite /fits (negbTE Hm) andbF.
Qed.

(** C10.  With the mask omitted, [updateinternals] is [updateinternals]
    with the all-true mask of the bound walker count, and, for proposed
    positions of that many walkers, [testvalue] is [testvalue] with that
    mask; on a bound instance and for an electron index of the ensemble,
    [testvalue] then returns one ratio per walker and [updateinternals]
    moves the electron in every walker. *)
Theorem omitted_mask_is_all_true s e epos :
  size epos = nconf_of s ->
  let all_true := nseq (nconf_of s) true in
  [/\ updateinternals e epos None s = updateinternals e epos (Some all_true) s,
      testvalue e epos None s = testvalue e epos (Some all_true) s
    & bound s -> e < _nelec s ->
      (exists2 r, testvalue e epos None s = Return r s & size r = nconf_of s)
      /\ (exists2 s', updateinternals e epos None s = Return tt s'
            & forall w, w < nconf_of s -> pos_of s' w e = nth v0 epos w)].
Proof.
move=> se /=; split=> //; first by rewrite /testvalue se.
move=> bs He; have Hf := fits_all He se; split.
  have [r [Hr sr _]] := testvalue_run bs Hf.
  by exists r; rewrite /testvalue ?se // sr count_nseq_true.
exists (after_update s e epos (nseq (nconf_of s) true)).
  by rewrite updateinternals_None updateinternals_spec // Hf.
move=> w Hw; rewrite /pos_of after_row // nth_nseq_true // nth_set_nth /= eqxx.
by [].
Qed.

(** ** Sums over electrons and pairs of electrons *)

Section IndexSums.
Implicit Types (G : nat -> R) (F : nat -> nat -> R) (P : pred nat).

Lemma sum_subrange a b n P G :
  (b <= n)%N ->
  \sum_(0 <= j < n | [&& a <= j, j < b & P j]%N) G j =
  \sum_(a <= j < b | P j) G j.
Proof.
move=> Hbn; case: (leqP a b) => Hab; last first.
  rewrite [RHS]big_geq ?(ltnW Hab) // big_nat_cond big_pred0 // => j.
  by apply/negbTE/negP => H; nat_lia.
rewrite (@big_cat_nat _ _ _ b) //= [X in _ + X]big_nat_cond.
have -> : \sum_(b <= i < n | (b <= i < n)%N && [&& a <= i, i < b & P i]%N) G i = 0.
  by apply: big_pred0 => j; apply/negbTE/negP => H; nat_lia.
rewrite addr0 (@big_cat_nat _ _ _ a) //= big_nat_cond.
have -> : \sum_(0 <= i < a | (0 <= i < a)%N && [&& a <= i, i < b & P i]%N) G i = 0.
  by apply: big_pred0 => j; apply/negbTE/negP => H; nat_lia.
rewrite add0r big_nat_cond [RHS]big_nat_cond; apply: eq_bigl => j.
by case: (P j); rewrite ?andbF ?andbT //; apply/idP/idP => H; nat_lia.
Qed.

Lemma sum_shift a n G :
  \sum_(a <= j < n) G j = \sum_(0 <= j < n - a) G (a + j)%N.
Proof.
rewrite -[in LHS](add0n a) big_addn; apply: eq_bigr => j _.
by rewrite addnC.
Qed.

(** Splitting off the term of index [e]. *)
Lemma sum_nat_D1 n e P G :
  (e < n)%N ->
  \sum_(0 <= j < n | P j) G j =
  (if P e then G e else 0) + \sum_(0 <= j < n | (j != e) && P j) G j.
Proof.
move=> He; rewrite big_mkcond /= (bigD1_seq e) ?mem_index_iota ?iota_uniq //=.
congr (_ + _); rewrite big_mkcond [RHS]big_mkcond /=.
by apply: eq_bigr => j _; case: eqP.
Qed.


(** A sum over the pairs [i < j] of a symmetric class [C], of a symmetric
    function [F]: the pairs that contain [e], and the others. *)
Lemma pair_sum_D1 n e (C : nat -> nat -> bool) F :
  (e < n)%N -> (forall i j, C i j = C j i) -> (forall i j, F i j = F j i) ->
  \sum_(0 <= i < n) \sum_(0 <= j < n | (i < j)%N && C i j) F i j =
  \sum_(0 <= j < n | (j != e) && C e j) F e j
  + \sum_(0 <= i < n | i != e)
      \sum_(0 <= j < n | (j != e) && ((i < j)%N && C i j)) F i j.
Proof.
move=> He Csym Fsym.
rewrite (@sum_nat_D1 n e xpredT) //= [X in _ = _ + X]big_mkcond /=.
rewrite [X in _ + X = _]big_mkcond /=.
have -> : \sum_(0 <= i < n) (if (i != e) && true
              then \sum_(0 <= j < n | (i < j)%N && C i j) F i j else 0) =
          \sum_(0 <= i < n) ((if [&& i != e, (i < e)%N & C i e] then F i e else 0)
            + (if i != e then
                 \sum_(0 <= j < n | (j != e) && ((i < j)%N && C i j)) F i j
               else 0)).
  apply: eq_bigr => i _; rewrite andbT; case: (eqVneq i e) => [->|Hie] /=.
    by rewrite addr0.
  by rewrite (@sum_nat_D1 n e).
rewrite big_split /= addrA; congr (_ + _).
rewrite [X in X + _]big_mkcond [RHS]big_mkcond /= -big_split /=.
apply: eq_bigr => j _.
case: (eqVneq j e) => [->|Hje] /=; first by rewrite ltnn /= addr0.
rewrite (Csym j e) (Fsym j e); case: (C e j); rewrite ?andbF ?addr0 //= !andbT.
by case: (ltngtP e j) Hje => //=; rewrite ?addr0 ?add0r // => ->; rewrite eqxx.
Qed.


(** Sums by spin: the electrons [0 <= j < nup] are up (spin index 0), the
    electrons [nup <= j < n] are down (spin index 1). *)
Variables (nup n : nat).
Hypothesis nup_le_n : (nup <= n)%N.
Let spin (j : nat) : nat := (nup <= j)%N.

Lemma sum_const_pred a b (c : bool) G :
  \sum_(a <= j < b | c) G j = if c then \sum_(a <= j < b) G j else 0.
Proof. by case: c => //; rewrite big_pred0. Qed.

Lemma spin_sum0 P G :
  \sum_(0 <= j < n | P j && (spin j == 0%N)) G j = \sum_(0 <= j < nup | P j) G j.
Proof.
rewrite -(@sum_subrange 0 nup n) //; apply: eq_bigl => j.
by rewrite /spin andbC leqNgt; case: (j < nup)%N.
Qed.

Lemma spin_sum1 P G :
  \sum_(0 <= j < n | P j && (spin j == 1%N)) G j = \sum_(nup <= j < n | P j) G j.
Proof.
rewrite -(@sum_subrange nup n n) // big_nat_cond [RHS]big_nat_cond.
apply: eq_bigl => j; rewrite /spin; case: (nup <= j)%N; rewrite /= ?andbF //.
by case: (P j); rewrite ?andbF // !andbT andbb.
Qed.

Lemma chan_sum0 F :
  \sum_(0 <= i < n) \sum_(0 <= j < n | (i < j)%N && (spin i + spin j == 0)%N) F i j
  = \sum_(0 <= i < nup) \sum_(i.+1 <= j < nup) F i j.
Proof.
have -> : \sum_(0 <= i < n)
            \sum_(0 <= j < n | (i < j)%N && (spin i + spin j == 0)%N) F i j =
          \sum_(0 <= i < n) \sum_(i.+1 <= j < nup) F i j.
  apply: eq_bigr => i _; rewrite -(@sum_subrange i.+1 nup n xpredT) //.
  apply: eq_bigl => j.
  by rewrite /spin; case: (leqP nup i) => Hi; case: (leqP nup j) => Hj; bool_nat.
rewrite (@big_cat_nat _ _ _ nup) //= [X in _ + X]big_nat_cond.
rewrite [X in _ + X]big1 ?addr0 // => i /andP [/andP [Hi _] _].
by rewrite big_geq // ltnW.
Qed.

Lemma chan_sum1 F :
  \sum_(0 <= i < n) \sum_(0 <= j < n | (i < j)%N && (spin i + spin j == 1)%N) F i j
  = \sum_(0 <= i < nup) \sum_(nup <= j < n) F i j.
Proof.
have -> : \sum_(0 <= i < n)
            \sum_(0 <= j < n | (i < j)%N && (spin i + spin j == 1)%N) F i j =
          \sum_(0 <= i < n | [&& 0 <= i, i < nup & true]%N)
             \sum_(nup <= j < n) F i j.
  rewrite [RHS]big_mkcond /=; apply: eq_bigr => i _.
  rewrite andbT -sum_const_pred -(@sum_subrange nup n n) //.
  rewrite big_nat_cond [RHS]big_nat_cond; apply: eq_bigl => j.
  by rewrite /spin; case: (leqP nup i) => Hi; case: (leqP nup j) => Hj; bool_nat.
exact: sum_subrange.
Qed.

Lemma chan_sum2 F :
  \sum_(0 <= i < n) \sum_(0 <= j < n | (i < j)%N && (spin i + spin j == 2)%N) F i j
  = \sum_(nup <= i < n) \sum_(i.+1 <= j < n) F i j.
Proof.
have -> : \sum_(0 <= i < n)
            \sum_(0 <= j < n | (i < j)%N && (spin i + spin j == 2)%N) F i j =
          \sum_(0 <= i < n | [&& nup <= i, i < n & true]%N)
             \sum_(i.+1 <= j < n) F i j.
  rewrite big_nat_cond [RHS]big_nat_cond [RHS]big_mkcond [LHS]big_mkcond /=.
  apply: eq_bigr => i _; case: (ltnP i n) => //= Hin; rewrite andbT.
  rewrite -sum_const_pred -(@sum_subrange i.+1 n n) //.
  rewrite big_nat_cond [RHS]big_nat_cond; apply: eq_bigl => j.
  by rewrite /spin; case: (leqP nup i) => Hi; case: (leqP nup j) => Hj; bool_nat.
exact: sum_subrange.
Qed.

End IndexSums.

(** ** From the slices of the code to sums by index *)

Section Bridge.
Variable T : Type.

Lemma mask_arange_neq (x0 : T) n e (row : seq T) :
  size row = n ->
  mask (arange_neq n e) row =
  [seq nth x0 row j | j <- [seq j <- iota 0 n | j != e]].
Proof.
move=> sz; rewrite -[in LHS](mkseq_nth x0 row) sz /mkseq /arange_neq.
by rewrite -map_mask -filter_mask.
Qed.

Lemma size_filter_neq n e :
  size [seq j <- iota 0 n | j != e] = (n - (e < n))%N.
Proof.
rewrite size_filter -[LHS](@addKn (count (pred1 e) (iota 0 n))).
rewrite [X in (_ + X)%N](@eq_count _ _ (predC (pred1 e))) //.
rewrite count_predC size_iota (count_uniq_mem _ (iota_uniq _ _)) mem_iota.
by rewrite add0n leq0n.
Qed.

Lemma filter_neq_split nup n e :
  (nup <= n)%N ->
  let L := [seq j <- iota 0 n | j != e] in
  let sep := (nup - (e < nup))%N in
  take sep L = [seq j <- iota 0 nup | j != e] /\
  drop sep L = [seq j <- iota nup (n - nup) | j != e].
Proof.
move=> Hn /=; rewrite -{1 2}(subnKC Hn) iotaD filter_cat add0n.
by rewrite -size_filter_neq take_size_cat // drop_size_cat.
Qed.

(** The two sums of [_b_update] over the other electrons, by index. *)
Lemma sums_not_e (x0 : T) nup n e (row : seq T) (G : T -> R) :
  size row = n -> (nup <= n)%N ->
  let others := mask (arange_neq n e) row in
  let sep := (nup - (e < nup))%N in
  \sum_(x <- take sep others) G x = \sum_(0 <= j < nup | j != e) G (nth x0 row j)
  /\ \sum_(x <- drop sep others) G x
     = \sum_(nup <= j < n | j != e) G (nth x0 row j).
Proof.
move=> sz Hn /=; rewrite (mask_arange_neq x0 e sz).
have [Ht Hd] := filter_neq_split e Hn.
rewrite -map_take -map_drop Ht Hd !big_map !big_filter.
by rewrite /index_iota subn0.
Qed.

End Bridge.

Lemma sum_dist_matrix (ps : seq vec3) (g : vec3 -> R) :
  \sum_(x <- dist_matrix ps) g x =
  \sum_(0 <= i < size ps) \sum_(i.+1 <= j < size ps)
     g (dist_i (nth v0 ps j) (nth v0 ps i)).
Proof.
elim: ps => [|p ps IH] /=; first by rewrite big_nil big_geq.
rewrite big_cat big_map /= IH big_nat_recl //=; congr (_ + _).
  by rewrite big_add1 /= (big_nth v0).
rewrite big_nat_cond [RHS]big_nat_cond; apply: eq_bigr => i _.
by rewrite [RHS]big_add1.
Qed.

Lemma sum_pairwise (ps qs : seq vec3) (g : vec3 -> R) :
  \sum_(x <- pairwise ps qs) g x =
  \sum_(0 <= i < size ps) \sum_(0 <= j < size qs)
     g (dist_i (nth v0 qs j) (nth v0 ps i)).
Proof.
rewrite /pairwise big_flatten /= big_map (big_nth v0); apply: eq_bigr => i _.
by rewrite big_map (big_nth v0).
Qed.

(** The three sums of lines 80-90 over the electrons of one walker. *)
Lemma sum_upup nup (row : seq vec3) (g : vec3 -> R) :
  (nup <= size row)%N ->
  \sum_(x <- dist_matrix (take nup row)) g x =
  \sum_(0 <= i < nup) \sum_(i.+1 <= j < nup)
     g (dist_i (nth v0 row j) (nth v0 row i)).
Proof.
move=> Hn; rewrite sum_dist_matrix size_takel // big_nat_cond [RHS]big_nat_cond.
apply: eq_bigr => i /andP [/andP [_ Hi] _].
rewrite big_nat_cond [RHS]big_nat_cond; apply: eq_bigr => j /andP [/andP [_ Hj] _].
by rewrite !nth_take.
Qed.

Lemma sum_updown nup (row : seq vec3) (g : vec3 -> R) :
  (nup <= size row)%N ->
  \sum_(x <- pairwise (take nup row) (drop nup row)) g x =
  \sum_(0 <= i < nup) \sum_(nup <= j < size row)
     g (dist_i (nth v0 row j) (nth v0 row i)).
Proof.
move=> Hn; rewrite sum_pairwise size_takel // size_drop.
rewrite big_nat_cond [RHS]big_nat_cond.
apply: eq_bigr => i /andP [/andP [_ Hi] _].
rewrite [RHS]sum_shift; apply: eq_bigr => j _.
by rewrite nth_take // nth_drop.
Qed.

Lemma sum_downdown nup (row : seq vec3) (g : vec3 -> R) :
  \sum_(x <- dist_matrix (drop nup row)) g x =
  \sum_(nup <= i < size row) \sum_(i.+1 <= j < size row)
     g (dist_i (nth v0 row j) (nth v0 row i)).
Proof.
rewrite sum_dist_matrix size_drop [RHS]sum_shift.
apply: eq_bigr => i _; rewrite [RHS]sum_shift [LHS]sum_shift.
rewrite -addnS subnDA; apply: eq_bigr => j _.
by rewrite !nth_drop addnA addnS.
Qed.

(** ** The log value and the coefficients *)

Lemma nth_logvalue_gen s w :
  w < size (logvalue s) ->
  nth 0 (logvalue s) w = b_contract s (bv_of s w) + a_contract s (av_of s w).
Proof.
rewrite /logvalue size_map => Hw.
rewrite (nth_map (0, zeros3)) // nth_zip_cond Hw /=.
move: Hw; rewrite size_zip size_map leq_min => /andP [Hb Ha].
by rewrite (nth_map zeros2).
Qed.

Lemma sum_delta1 n i0 (X : nat -> R) :
  i0 < n -> \sum_(i < n) (if (i : nat) == i0 then X i else 0) = X i0.
Proof.
move=> Hi; rewrite (bigD1 (Ordinal Hi)) //= eqxx big1 ?addr0 // => i.
by rewrite -val_eqE /= => /negbTE ->.
Qed.

Lemma b_contract_bump s l0 c0 t bv :
  l0 < size (b_basis s) -> c0 < 3 ->
  b_contract (set_bcoeff (bump2 (bcoeff s) l0 c0 t) s) bv =
  b_contract s bv + bv l0 c0 * t.
Proof.
move=> Hl Hc; rewrite /b_contract /= /bump2.
rewrite -[bv l0 c0 * t](sum_delta1 (fun l => bv l c0 * t) Hl) -big_split /=.
apply: eq_bigr => l _.
rewrite -[X in _ + X](sum_delta1
  (fun c => if (l : nat) == l0 then bv l c * t else 0) Hc) -big_split /=.
apply: eq_bigr => c _; case: (_ == l0) => /=; last first.
  by rewrite if_same addr0.
by case: (_ == c0); rewrite ?mulrDr ?addr0.
Qed.

Lemma a_contract_bump s I0 k0 s0 t av :
  I0 < natm (_mol s) -> k0 < size (a_basis s) -> s0 < 2 ->
  a_contract (set_acoeff (bump3 (acoeff s) I0 k0 s0 t) s) av =
  a_contract s av + av I0 k0 s0 * t.
Proof.
move=> HI Hk Hs; rewrite /a_contract /= /bump3.
rewrite -[av I0 k0 s0 * t](sum_delta1 (fun I => av I k0 s0 * t) HI).
rewrite -big_split /=; apply: eq_bigr => I _.
rewrite -[X in _ + X](sum_delta1
  (fun k => if (I : nat) == I0 then av I k s0 * t else 0) Hk) -big_split /=.
apply: eq_bigr => k _.
rewrite -[X in _ + X](sum_delta1
  (fun sp => if (k : nat) == k0 then
              if (I : nat) == I0 then av I k sp * t else 0 else 0) Hs).
rewrite -big_split /=; apply: eq_bigr => sp _.
case: (_ == I0) => /=; last by rewrite !if_same addr0.
case: (_ == k0) => /=; last by rewrite if_same addr0.
by case: (_ == s0); rewrite ?mulrDr ?addr0.
Qed.

(** C7.  [pgradient] returns the cached [_bvalues] under ["bcoeff"] and the
    cached [_avalues] under ["acoeff"], and leaves the instance as it is.
    They are the derivatives of the log value with respect to the
    coefficients: adding [t] to the entry [l0, c0] of [bcoeff] adds [t] times
    the entry [l0, c0] of the tensor returned for walker [w] to the log value
    of walker [w], and likewise for each entry of [acoeff]. *)
Theorem pgradient_is_coefficient_derivative s w :
  exists pg,
    [/\ pgradient s = Return pg s,
        pg_bcoeff pg = _bvalues s,
        pg_acoeff pg = _avalues s,
        forall l0 c0 t,
          w < size (logvalue s) -> l0 < size (b_basis s) -> c0 < 3 ->
          nth 0 (logvalue (set_bcoeff (bump2 (bcoeff s) l0 c0 t) s)) w =
          nth 0 (logvalue s) w + nth zeros2 (pg_bcoeff pg) w l0 c0 * t
      & forall I0 k0 s0 t,
          w < size (logvalue s) -> I0 < natm (_mol s) ->
          k0 < size (a_basis s) -> s0 < 2 ->
          nth 0 (logvalue (set_acoeff (bump3 (acoeff s) I0 k0 s0 t) s)) w =
          nth 0 (logvalue s) w + nth zeros3 (pg_acoeff pg) w I0 k0 s0 * t].
Proof.
exists (MkPgradient (_bvalues s) (_avalues s)); split=> //.
- move=> l0 c0 t Hw Hl Hc.
  have Hw' : w < size (logvalue (set_bcoeff (bump2 (bcoeff s) l0 c0 t) s)).
    by move: Hw; rewrite /logvalue !size_map !size_zip !size_map.
  by rewrite !nth_logvalue_gen // b_contract_bump // addrAC.
- move=> I0 k0 s0 t Hw HI Hk Hs.
  have Hw' : w < size (logvalue (set_acoeff (bump3 (acoeff s) I0 k0 s0 t) s)).
    by move: Hw; rewrite /logvalue !size_map !size_zip !size_map.
  by rewrite !nth_logvalue_gen // a_contract_bump // addrA.
Qed.

(** ** Running [recompute] *)

Lemma same_inputs_refl t : same_inputs t t.
Proof. by []. Qed.

Lemma same_inputs_kernels t t0 :
  same_inputs t t0 ->
  [/\ a_values t = a_values t0, dist_ions t = dist_ions t0,
      b_sums t = b_sums t0, sep_of t = sep_of t0
    & others_of t = others_of t0].
Proof.
case: t t0 => [a1 b1 ac1 bc1 n1 m1 c1 av1 bv1 ap1 bp1].
case=> [a2 b2 ac2 bc2 n2 m2 c2 av2 bv2 ap2 bp2].
by case=> [[/= -> -> -> -> ->] [-> ->]].
Qed.

Lemma bound_set_a_partial t ap :
  bound t -> has_shape (_nelec t) (nconf_of t) ap -> bound (set_a_partial ap t).
Proof.
move=> bt; have [_ _ Hne _ _] := boundP bt; rewrite -Hne /nconf_of => Hap.
move: bt; rewrite /bound /= => /and5P [-> -> -> -> /and3P [-> _ ->]] /=.
by rewrite andbT.
Qed.

Lemma bound_set_b_partial t bp :
  bound t -> has_shape (_nelec t) (nconf_of t) bp -> bound (set_b_partial bp t).
Proof.
move=> bt; have [_ _ Hne _ _] := boundP bt; rewrite -Hne /nconf_of => Hbp.
by move: bt; rewrite /bound /= => /and5P [-> -> -> -> /and3P [-> -> _]] /=.
Qed.

Lemma has_shape_nseq (T : Type) n1 n2 (x : T) :
  has_shape n1 n2 (nseq n1 (nseq n2 x)).
Proof.
rewrite /has_shape size_nseq eqxx /=; apply/(all_nthP [::]) => i.
by rewrite size_nseq => Hi; rewrite nth_nseq Hi size_nseq.
Qed.

Section Recompute.
Variables (s : JastrowSpin) (cfg : Configs).
Hypothesis Hacc : accepts s cfg.

(** The instance after lines 64-71. *)
Let t0 : JastrowSpin :=
  set_b_partial (nseq (shape cfg).2 (nseq (shape cfg).1 zeros2))
    (set_a_partial (nseq (shape cfg).2 (nseq (shape cfg).1 zeros2))
       (set_avalues (nseq (shape cfg).1 zeros3)
          (set_bvalues (nseq (shape cfg).1 zeros2)
             (set_configscurrent (copy cfg) s)))).

Lemma bound_t0 : bound t0.
Proof.
case/and3P: Hacc; rewrite /wf_configs => wfc /eqP Hne /eqP Hnup.
rewrite /bound /wf_configs /= wfc Hne Hnup !eqxx !size_nseq !eqxx /=.
by rewrite -Hne !has_shape_nseq.
Qed.

Lemma size_electron e : size (electron cfg e) = (shape cfg).1.
Proof. by case/and3P: Hacc => /andP [/eqP sz _] _ _; rewrite size_map. Qed.

Lemma step_run t e :
  bound t -> same_inputs t t0 -> e < _nelec t0 ->
  [/\ recompute_partials cfg (nseq (shape cfg).1 true) e t =
      Return tt (loop_step t0 cfg t e),
      bound (loop_step t0 cfg t e)
    & same_inputs (loop_step t0 cfg t e) t0].
Proof.
move=> bt st He; have [Ka Kd Kb Ks Ko] := same_inputs_kernels st.
case: (st) => [[Ea Eb Eac Ebc En] [Em Ec]].
have Hnc : nconf_of t = (shape cfg).1 by rewrite /nconf_of Ec.
have sm : size (nseq (shape cfg).1 true) = size (electron cfg e).
  by rewrite size_nseq size_electron.
have sc : size (nseq (shape cfg).1 true) = nconf_of t by rewrite size_nseq.
have [szc rowc Hne Hnup [sza szb Hap Hbp]] := boundP bt.
have He' : e < _nelec t by rewrite En.
have [szap rowap] := has_shapeP Hap; have [szbp rowbp] := has_shapeP Hbp.
have Hap1 : has_shape (_nelec t) (nconf_of t)
    (set_nth [::] (_a_partial t) e
       [seq a_values t dw
       | dw <- [seq dist_ions t v
               | v <- mask (nseq (shape cfg).1 true) (electron cfg e)]]).
  apply: has_shape_set_nth => //.
  by rewrite 2!size_map size_mask // count_nseq_true Hnc.
have bt1 := bound_set_a_partial bt Hap1.
rewrite /recompute_partials /bind _a_update_run // /self /assign.
set t1 := set_a_partial _ t.
have st1 : same_inputs t1 t0 by exact: st.
have [Ka1 Kd1 Kb1 Ks1 Ko1] := same_inputs_kernels st1.
rewrite /= _b_update_run //.
have Hbp1 : has_shape (_nelec t) (nconf_of t)
    (set_nth [::] (_b_partial t) e
       [seq b_sums t (sep_of t e) dw
       | dw <- dist_rows (others_of t e (nseq (shape cfg).1 true))
                 (mask (nseq (shape cfg).1 true) (electron cfg e))]).
  apply: has_shape_set_nth => //.
  rewrite size_map /dist_rows size_map size_zip /others_of size_map.
  by rewrite !size_mask ?szc // minnn count_nseq_true Hnc.
split.
- by rewrite /loop_step Kb1 Ks1 Ko1 /t1 Ka Kd.
- by rewrite /loop_step -Ka -Kd -Kb -Ks -Ko; apply: bound_set_b_partial.
- by [].
Qed.

Lemma loop_run es t :
  bound t -> same_inputs t t0 -> all (fun e => e < _nelec t0) es ->
  [/\ for_ es (recompute_partials cfg (nseq (shape cfg).1 true)) t =
      Return tt (foldl (loop_step t0 cfg) t es),
      bound (foldl (loop_step t0 cfg) t es)
    & same_inputs (foldl (loop_step t0 cfg) t es) t0].
Proof.
elim: es t => [|e es IH] t bt st //= /andP [He Hes].
have [Hr bt1 st1] := step_run bt st He.
have [Hl bl sl] := IH _ bt1 st1 Hes.
by split=> //; rewrite /bind Hr.
Qed.

Lemma foldl_step_ap es t o :
  nth [::] (_a_partial (foldl (loop_step t0 cfg) t es)) o =
  if o \in es then
    [seq a_values t0 dw
    | dw <- [seq dist_ions t0 v
            | v <- mask (nseq (shape cfg).1 true) (electron cfg o)]]
  else nth [::] (_a_partial t) o.
Proof.
elim: es t => [|e es IH] t //=; rewrite IH in_cons /= nth_set_nth /=.
by case: (o \in es); rewrite ?orbT ?orbF //; case: eqP => // ->.
Qed.

Lemma foldl_step_bp es t o :
  nth [::] (_b_partial (foldl (loop_step t0 cfg) t es)) o =
  if o \in es then
    [seq b_sums t0 (sep_of t0 o) dw
    | dw <- dist_rows (others_of t0 o (nseq (shape cfg).1 true))
              (mask (nseq (shape cfg).1 true) (electron cfg o))]
  else nth [::] (_b_partial t) o.
Proof.
elim: es t => [|e es IH] t //=; rewrite IH in_cons /= nth_set_nth /=.
by case: (o \in es); rewrite ?orbT ?orbF //; case: eqP => // ->.
Qed.

Let tL : JastrowSpin := foldl (loop_step t0 cfg) t0 (iota 0 (shape cfg).2).

Lemma loop_all_lt : all (fun e => e < _nelec t0) (iota 0 (shape cfg).2).
Proof.
case/and3P: Hacc => _ /eqP Hne _; apply/allP => e.
by rewrite mem_iota add0n /= Hne.
Qed.

(** The instance that [recompute] leaves, field by field. *)
Lemma recompute_run :
  let di :=
    [seq [seq dist_ions tL (nth v0 row e) | row <- configs cfg]
    | e <- iota 0 (shape cfg).2] in
  let s1 :=
    set_avalues [seq avalues_of tL di w | w <- iota 0 (shape cfg).1]
      (set_bvalues [seq bvalues_of tL row | row <- configs cfg] tL) in
  recompute cfg s = Return (1, logvalue s1) s1.
Proof.
have [Hl _ _] := loop_run bound_t0 (same_inputs_refl t0) loop_all_lt.
by rewrite /recompute /bind /assign /= -/t0 Hl.
Qed.

Lemma after_recompute_inputs : same_inputs (after_recompute s cfg) t0.
Proof.
have [_ _ sl] := loop_run bound_t0 (same_inputs_refl t0) loop_all_lt.
by rewrite /after_recompute recompute_run.
Qed.

Lemma after_recompute_bound : bound (after_recompute s cfg).
Proof.
have [_ bl sl] := loop_run bound_t0 (same_inputs_refl t0) loop_all_lt.
rewrite /after_recompute recompute_run /=.
case: sl => _ [_ Ec]; move: bl; rewrite /bound /= -/tL Ec /=.
case/and5P => wfc -> -> _ /and3P [_ -> ->].
rewrite wfc !size_map size_iota eqxx /= andbT.
by case/andP: wfc => /eqP ->; rewrite eqxx.
Qed.

End Recompute.

(** ** The caches mirror the snapshot *)

Lemma nup_le_nelec s : bound s -> ((nelec (_mol s)).1 <= _nelec s)%N.
Proof. by case/boundP=> _ _ _ <- _; rewrite leq_addr. Qed.

(** The two sums of [_b_update] (lines 165-167), by electron index. *)
Lemma b_sums_index s e w p l sp :
  bound s -> w < nconf_of s -> sp < 2 ->
  b_sums s (sep_of s e) (dist_not_e s e w p) l sp =
  \sum_(0 <= j < _nelec s | (j != e) && (edown_of s j == sp))
     val (nth f0 (b_basis s) l) (dist_i (pos_of s w j) p).
Proof.
move=> bs Hw Hsp; have [szc rowc Hne Hnup _] := boundP bs.
have Hn := nup_le_nelec bs.
have [Ht Hd] := sums_not_e v0 e
  (fun c => val (nth f0 (b_basis s) l) (dist_i c p)) (rowc w Hw) Hn.
rewrite /b_sums /dist_not_e -map_comp -map_take -map_drop !big_map.
rewrite -/(row_of s w) /sep_of.
case: sp Hsp => [|[|]] //= _; rewrite ?Ht ?Hd.
  by rewrite -(spin_sum0 Hn).
by rewrite -spin_sum1.
Qed.

Section AfterRecompute.
Variables (s : JastrowSpin) (cfg : Configs).
Hypothesis Hacc : accepts s cfg.
Let s1 := after_recompute s cfg.

Lemma after_recompute_row w : row_of s1 w = nth [::] (configs cfg) w.
Proof.
by case: (after_recompute_inputs Hacc) => _ [_]; rewrite /row_of -/s1 => ->.
Qed.

Lemma after_recompute_nconf : nconf_of s1 = (shape cfg).1.
Proof.
by case: (after_recompute_inputs Hacc) => _ [_]; rewrite /nconf_of -/s1 => ->.
Qed.

Lemma after_recompute_nelec : _nelec s1 = (shape cfg).2.
Proof.
case: (after_recompute_inputs Hacc) => [[_ _ _ _ ->] _] /=.
by case/and3P: Hacc => _ /eqP.
Qed.

Lemma after_recompute_ap w : w < nconf_of s1 -> ap_ok s1 w.
Proof.
move=> Hw e I k He.
have [Ka Kd Kb Ks Ko] := same_inputs_kernels (after_recompute_inputs Hacc).
have Hw' : w < (shape cfg).1 by rewrite -after_recompute_nconf.
have He' : e < (shape cfg).2 by rewrite -after_recompute_nelec.
have szc : size (configs cfg) = (shape cfg).1.
  by case/and3P: Hacc => /andP [/eqP].
rewrite /ionval /pos_of after_recompute_row -/s1 Ka Kd.
rewrite /ap_of /s1 /after_recompute recompute_run //= foldl_step_ap.
have se := size_electron Hacc e.
rewrite mem_iota add0n He' /= mask_true ?se //.
rewrite (nth_map [::]) ?size_map ?szc //.
by rewrite (nth_map v0) ?se // /electron (nth_map [::]) ?szc.
Qed.

Lemma after_recompute_bp w : w < nconf_of s1 -> bp_ok s1 w.
Proof.
move=> Hw e l sp He Hl Hsp.
have [Ka Kd Kb Ks Ko] := same_inputs_kernels (after_recompute_inputs Hacc).
have bs1 := after_recompute_bound Hacc.
have Hw' : w < (shape cfg).1 by rewrite -after_recompute_nconf.
have He' : e < (shape cfg).2 by rewrite -after_recompute_nelec.
have se := size_electron Hacc e.
have szc : size (configs cfg) = (shape cfg).1.
  by case/and3P: Hacc => /andP [/eqP].
have Hf : fits s1 e (electron cfg e) (nseq (shape cfg).1 true).
  by rewrite /fits size_nseq se after_recompute_nconf !eqxx He.
have Hmw : nth false (nseq (shape cfg).1 true) w by rewrite nth_nseq Hw'.
have -> : bp_of s1 e w =
    b_sums s1 (sep_of s1 e) (dist_not_e s1 e w (pos_of s1 w e)).
  rewrite /bp_of {1}/s1 /after_recompute recompute_run //= foldl_step_bp.
  rewrite mem_iota add0n He' /= -Kb -Ks -Ko.
  have sd := size_dist_rows bs1 Hf (vs:=electron cfg e).
  rewrite size_nseq se count_nseq_true in sd.
  rewrite (nth_map [::]) ?sd //.
  rewrite -[X in nth [::] _ X](rank_nseq_true (ltnW Hw')).
  rewrite (nth_dist_rows bs1 Hf) ?size_nseq //.
  by rewrite /pos_of after_recompute_row /electron (nth_map [::]) ?szc.
by rewrite b_sums_index.
Qed.

Lemma after_recompute_bv w : w < nconf_of s1 -> bv_ok s1 w.
Proof.
move=> Hw l c Hl Hc; have bs1 := after_recompute_bound Hacc.
have [szc rowc Hne Hnup _] := boundP bs1; have Hn := nup_le_nelec bs1.
have Hw' : w < (shape cfg).1 by rewrite -after_recompute_nconf.
have szc' : size (configs cfg) = (shape cfg).1.
  by case/and3P: Hacc => /andP [/eqP].
have -> : bv_of s1 w = bvalues_of s1 (row_of s1 w).
  rewrite after_recompute_row /bv_of /s1 /after_recompute recompute_run //=.
  by rewrite (nth_map [::]) ?szc'.
have sr : size (row_of s1 w) = _nelec s1 by apply: rowc.
rewrite /bvalues_of; case: c Hc => [|[|[|]]] //= _.
- by rewrite sum_upup ?sr // -(chan_sum0 Hn).
- by rewrite sum_updown ?sr // -(chan_sum1 Hn).
- by rewrite sum_downdown ?sr // -chan_sum2.
Qed.

Lemma after_recompute_av w : w < nconf_of s1 -> av_ok s1 w.
Proof.
move=> Hw I k sp Hsp; have bs1 := after_recompute_bound Hacc.
have Hn := nup_le_nelec bs1.
have Hap := after_recompute_ap Hw.
have Hw' : w < (shape cfg).1 by rewrite -after_recompute_nconf.
have szc' : size (configs cfg) = (shape cfg).1.
  by case/and3P: Hacc => /andP [/eqP].
have -> : av_of s1 w =
    avalues_of s1
      [seq [seq dist_ions s1 (nth v0 row e) | row <- configs cfg]
      | e <- iota 0 (shape cfg).2] w.
  rewrite /av_of /s1 /after_recompute recompute_run //=.
  by rewrite (nth_map 0%N) ?size_iota // nth_iota.
rewrite /avalues_of -map_comp -after_recompute_nelec.
set f := (X in [seq X e | e <- _]).
have Ef e : e < _nelec s1 -> f e = ap_of s1 e w I k.
  move=> He; rewrite Hap // /f /= (nth_map [::]) ?szc' //.
  by rewrite /ionval /pos_of after_recompute_row.
have Esum a b : (b <= _nelec s1)%N ->
    \sum_(e <- iota a (b - a)) f e = \sum_(a <= e < b) ap_of s1 e w I k.
  move=> Hb; rewrite -/(index_iota a b) big_nat_cond [RHS]big_nat_cond.
  apply: eq_bigr => e /andP [/andP [_ He] _]; apply: Ef.
  exact: leq_trans He Hb.
case: sp Hsp => [|[|]] //= _.
- rewrite -map_take take_iota (minn_idPl Hn) big_map.
  rewrite -[X in iota 0 X]subn0 Esum //.
  rewrite -(@spin_sum0 _ _ Hn xpredT); apply: eq_bigl => e.
  by [].
- rewrite -map_drop drop_iota add0n big_map Esum //.
  by rewrite -(@spin_sum1 _ _ xpredT); apply: eq_bigl => e.
Qed.

(** After [recompute] the caches mirror the snapshot. *)
Lemma after_recompute_mirrors : mirrors s1.
Proof.
move=> w Hw; split.
- exact: after_recompute_ap.
- exact: after_recompute_av.
- exact: after_recompute_bp.
- exact: after_recompute_bv.
Qed.

End AfterRecompute.

(** ** An update keeps the caches in step with the snapshot *)

Section Preservation.
Variables (s : JastrowSpin) (e : nat) (epos : Epos) (m : bitseq).
Hypothesis bs : bound s.
Hypothesis Hf : fits s e epos m.
Hypothesis even : b_even s.
Let s' := after_update s e epos m.
Variable w : nat.
Hypothesis Hw : w < nconf_of s.
Hypothesis Hap : ap_ok s w.
Hypothesis Hav : av_ok s w.
Hypothesis Hbp : bp_ok s w.
Hypothesis Hbv : bv_ok s w.
Let p := nth v0 epos w.

Lemma after_pos j :
  pos_of s' w j = if nth false m w && (j == e) then p else pos_of s w j.
Proof.
rewrite /pos_of after_row //; case: ifP => //= _.
by rewrite nth_set_nth /=; case: eqP.
Qed.

Lemma after_edown j : edown_of s' j = edown_of s j.
Proof. by case: (after_static bs Hf) => _ [Hm _]; rewrite /edown_of -/s' Hm. Qed.

Lemma after_nelec : _nelec s' = _nelec s.
Proof. by case: (after_static bs Hf) => [[_ _ _ _ ->] _]. Qed.

Lemma after_b_basis : b_basis s' = b_basis s.
Proof. by case: (after_static bs Hf) => [[_ -> _ _ _] _]. Qed.

Lemma after_ionval I k o :
  ionval s' w I k o = a_values s (dist_ions s (pos_of s' w o)) I k.
Proof.
case: (after_static bs Hf) => [[Ha _ _ _ _] [Hm _]].
by rewrite /ionval /a_values /dist_ions -/s' Ha Hm.
Qed.

Lemma after_pairval l i j :
  pairval s' w l i j =
  val (nth f0 (b_basis s) l) (dist_i (pos_of s' w j) (pos_of s' w i)).
Proof. by rewrite /pairval after_b_basis. Qed.

Lemma pairval_sym l i j : l < size (b_basis s) ->
  pairval s w l i j = pairval s w l j i.
Proof. by move=> Hl; rewrite /pairval even. Qed.

Lemma keeps_ap : ap_ok s' w.
Proof.
move=> o I k; rewrite after_nelec => Ho.
rewrite after_ionval after_pos after_ap // -/p.
by case: ifP => // _; apply: Hap.
Qed.

Lemma keeps_av : av_ok s' w.
Proof.
case/and3P: (Hf) => _ _ He.
move=> I k sp Hsp; rewrite after_nelec after_av //.
rewrite (@sum_nat_D1 (_nelec s) e) // after_edown.
have -> : \sum_(0 <= j < _nelec s | (j != e) && (edown_of s' j == sp))
             ap_of s' j w I k =
          \sum_(0 <= j < _nelec s | (j != e) && (edown_of s j == sp))
             ap_of s j w I k.
  apply: eq_big => [j|j /andP [/negbTE Hj _]]; first by rewrite after_edown.
  by rewrite after_ap // Hj andbF.
rewrite after_ap // eqxx andbT -/p.
case: ifP => Hmw; last by rewrite Hav // (@sum_nat_D1 (_nelec s) e).
rewrite /add_slot3 /sub2 Hav // (@sum_nat_D1 (_nelec s) e) //.
case: (eqVneq (edown_of s e) sp) => [_|Nsp] //.
by rewrite addrAC [_ + (_ - _)]addrC subrK.
Qed.

Lemma swap_term (x y r : R) : x + r + (y - x) = y + r.
Proof. by rewrite addrAC [_ + (_ - _)]addrC subrK. Qed.

Lemma keeps_bp : bp_ok s' w.
Proof.
case/and3P: (Hf) => _ _ He.
move=> o l sp; rewrite after_nelec after_b_basis => Ho Hl Hsp.
rewrite after_bp //; case Hmw: (nth false m w); last first.
  rewrite Hbp //; apply: eq_big => [j|j _]; first by rewrite after_edown.
  by rewrite after_pairval !after_pos Hmw.
case: (eqVneq o e) => [Eo|Noe].
  rewrite /set_cols Hl Hsp /= b_sums_index // Eo.
  apply: eq_big => [j|j /andP [/negbTE Nj _]]; first by rewrite after_edown.
  by rewrite after_pairval !after_pos Hmw /= Nj eqxx.
rewrite /add_col Hl /= Hbp //.
rewrite (@sum_nat_D1 (_nelec s) e
  (fun j => (j != o) && (edown_of s j == sp)) (pairval s w l o) He).
rewrite (@sum_nat_D1 (_nelec s) e
  (fun j => (j != o) && (edown_of s' j == sp)) (pairval s' w l o) He).
rewrite after_edown.
have -> : \sum_(0 <= j < _nelec s
               | (j != e) && ((j != o) && (edown_of s' j == sp)))
             pairval s' w l o j =
          \sum_(0 <= j < _nelec s
               | (j != e) && ((j != o) && (edown_of s j == sp)))
             pairval s w l o j.
  apply: eq_big => [j|j /andP [/negbTE Nj _]]; first by rewrite after_edown.
  by rewrite after_pairval !after_pos Nj (negbTE Noe) !andbF.
rewrite [e == o]eq_sym (negbTE Noe) /= after_pairval !after_pos Hmw eqxx.
rewrite (negbTE Noe) /=.
case: (eqVneq (edown_of s e) sp) => [_|Nsp] //.
rewrite -/p (even (pos_of s w o) p Hl).
by rewrite (even (pos_of s w o) (pos_of s w e) Hl) -/(pairval s w l o e) swap_term.
Qed.

Lemma keeps_bv : bv_ok s' w.
Proof.
case/and3P: (Hf) => _ _ He.
move=> l c; rewrite after_nelec after_b_basis => Hl Hc.
rewrite after_bv //.
have -> : \sum_(0 <= i < _nelec s)
            \sum_(0 <= j < _nelec s
                 | (i < j) && (edown_of s' i + edown_of s' j == c)%N)
               pairval s' w l i j =
          \sum_(0 <= i < _nelec s)
            \sum_(0 <= j < _nelec s
                 | (i < j) && (edown_of s i + edown_of s j == c)%N)
               pairval s' w l i j.
  by apply: eq_bigr => i _; apply: eq_bigl => j; rewrite !after_edown.
case Hmw: (nth false m w); last first.
  rewrite Hbv //; apply: eq_bigr => i _; apply: eq_bigr => j _.
  by rewrite after_pairval !after_pos Hmw.
pose C i j := (edown_of s i + edown_of s j == c)%N.
have Csym i j : C i j = C j i by rewrite /C addnC.
have Fsym' i j : pairval s' w l i j = pairval s' w l j i.
  by rewrite !after_pairval even.
rewrite (pair_sum_D1 He Csym Fsym').
have -> : \sum_(0 <= i < _nelec s | i != e)
            \sum_(0 <= j < _nelec s | (j != e) && ((i < j) && C i j))
               pairval s' w l i j =
          \sum_(0 <= i < _nelec s | i != e)
            \sum_(0 <= j < _nelec s | (j != e) && ((i < j) && C i j))
               pairval s w l i j.
  apply: eq_bigr => i /negbTE Ni; apply: eq_bigr => j /andP [/negbTE Nj _].
  by rewrite after_pairval !after_pos Ni Nj !andbF.
have EF' : \sum_(0 <= j < _nelec s | (j != e) && C e j) pairval s' w l e j =
           \sum_(0 <= j < _nelec s | (j != e) && C e j)
              val (nth f0 (b_basis s) l) (dist_i (pos_of s w j) p).
  apply: eq_bigr => j /andP [/negbTE Nj _].
  by rewrite after_pairval !after_pos Hmw Nj eqxx.
rewrite EF' /add_slice2 /sub2 Hbv //.
rewrite (pair_sum_D1 He Csym (fun i j => pairval_sym i j Hl)).
case: ifP => [/andP [Hlo Hhi]|Hout].
  have Hc2 : (c - edown_of s e < 2)%N by rewrite ltn_subLR.
  have EC j : C e j = (edown_of s j == c - edown_of s e)%N.
    by rewrite /C -{1}(subnKC Hlo) eqn_add2l.
  rewrite b_sums_index // Hbp //.
  rewrite (eq_bigl _ _ (fun j => congr1 (andb (j != e)) (EC j))).
  rewrite [X in _ = X + _](eq_bigl _ _
    (fun j => congr1 (andb (j != e)) (EC j))).
  by rewrite swap_term.
have EC j : C e j = false.
  rewrite /C; apply/negbTE/negP => /eqP Ec; move/negP: Hout; apply.
  rewrite -Ec leq_addr /= ltn_add2l /edown_of.
  by case: (_ <= j)%N.
by congr (_ + _); rewrite !big_pred0 // => j; rewrite EC andbF.
Qed.

Lemma keeps_mirror :
  [/\ ap_ok s' w, av_ok s' w, bp_ok s' w & bv_ok s' w].
Proof.
split; [exact: keeps_ap | exact: keeps_av | exact: keeps_bp | exact: keeps_bv].
Qed.

End Preservation.

Lemma after_update_mirrors s e epos m :
  bound s -> fits s e epos m -> b_even s -> mirrors s ->
  mirrors (after_update s e epos m).
Proof.
move=> bs Hf even Hs w; case: (after_static bs Hf) => _ [_ Hsh].
rewrite /nconf_of Hsh => Hw; have [H1 H2 H3 H4] := Hs w Hw.
exact: keeps_mirror.
Qed.


(** ** The invariants along a run *)

Lemma final_update s e epos mask :
  bound s ->
  final_state (updateinternals e epos mask s) =
  let m := if mask is Some m then m else nseq (nconf_of s) true in
  if fits s e epos m then after_update s e epos m else s.
Proof.
move=> bs; case: mask => [m|] /=; rewrite ?updateinternals_None;
  by rewrite updateinternals_spec //; case: ifP.
Qed.

Lemma b_even_basis s t : b_basis s = b_basis t -> b_even s -> b_even t.
Proof. by rewrite /b_even => ->. Qed.

Lemma reachable_bound s : reachable s -> bound s.
Proof.
elim=> {s} [s cfg Hacc|s e epos mask _ bs]; first exact: after_recompute_bound.
by rewrite final_update //=; case: ifP => // Hf; apply: after_bound.
Qed.

Lemma reachable_mirrors s : reachable s -> b_even s -> mirrors s.
Proof.
elim=> {s} [s cfg Hacc _|s e epos mask Hs IH]; first exact: after_recompute_mirrors.
have bs := reachable_bound Hs; rewrite final_update //=.
case: ifP => Hf // even; have [[_ Hb _ _ _] _] := after_static bs Hf.
have even_s : b_even s by apply: b_even_basis even.
by apply: after_update_mirrors => //; apply: IH.
Qed.

(** The invariants in the form of sums over the electrons of each spin. *)
Lemma mirrors_invariants s w :
  bound s -> w < nconf_of s -> mirrors s -> [/\ I1 s w, I2 s w & I3 s w].
Proof.
move=> bs Hw ms; have [_ Hav Hbp Hbv] := ms w Hw; have Hn := nup_le_nelec bs.
split.
- move=> I k; rewrite !Hav //; split.
    by rewrite -(@spin_sum0 _ _ Hn xpredT); apply: eq_bigl.
  by rewrite -(@spin_sum1 _ _ xpredT); apply: eq_bigl.
- move=> l Hl; rewrite !Hbv //; split.
  + by rewrite -(chan_sum0 Hn).
  + by rewrite -(chan_sum1 Hn).
  + by rewrite -chan_sum2.
- move=> e l He Hl; rewrite !Hbp //; split.
    by rewrite -[RHS](spin_sum0 Hn).
  by rewrite -[RHS]spin_sum1.
Qed.

(** C3.  In exact arithmetic, the invariants I1, I2 and I3 hold after
    [recompute] and after every call of [updateinternals] that follows it
    (on doubles an update can leave a rounding error in the cached sums):
    in every instance that a
    run reaches, and for every walker, a cell of [_avalues] is the sum of the
    cells of [_a_partial] over the up electrons (spin 0) or over the down
    electrons (spin 1); the same-spin channels 0 and 2 of [_bvalues] are the
    sums of the two-body basis values over the pairs [i < j] of up or of down
    electrons, each pair once, and channel 1 is the sum over all pairs of an
    up and a down electron; and a cell of [_b_partial] of electron [e] sums
    over the electrons of one spin other than [e], so [e] is never paired
    with itself.  The two-body basis functions are functions of the
    separation of a pair: their value does not depend on the order in which
    the two positions are given ([b_even]). *)
Theorem invariants_hold_along_a_run s w :
  reachable s -> b_even s -> w < nconf_of s ->
  [/\ I1 s w, I2 s w & I3 s w].
Proof.
move=> Hs even Hw; apply: mirrors_invariants => //.
  exact: reachable_bound.
exact: reachable_mirrors.
Qed.


(** ** The incremental path and the full path agree *)

Lemma for_run (T : eqType) (xs : seq T) (body : T -> M unit)
    (step : JastrowSpin -> T -> JastrowSpin) (Inv : JastrowSpin -> Prop) :
  (forall t x, x \in xs -> Inv t ->
     body x t = Return tt (step t x) /\ Inv (step t x)) ->
  forall t, Inv t ->
    for_ xs body t = Return tt (foldl step t xs) /\ Inv (foldl step t xs).
Proof.
elim: xs => [|x xs IH] Hstep t Ht //=.
have [Hx Hi] := Hstep t x (mem_head _ _) Ht.
rewrite /bind Hx; apply: IH => // t' y Hy.
by apply: Hstep; rewrite inE Hy orbT.
Qed.

Lemma recompute_returns s cfg :
  accepts s cfg ->
  recompute cfg s =
  Return (1, logvalue (after_recompute s cfg)) (after_recompute s cfg).
Proof. by move=> Hacc; rewrite /after_recompute recompute_run. Qed.

Lemma same_model_recompute s cfg :
  accepts s cfg -> same_model (after_recompute s cfg) s.
Proof.
by move=> Hacc; case: (after_recompute_inputs Hacc) => [[? ? ? ? ?] [? _]]; split.
Qed.

Lemma same_model_trans t u s :
  same_model t u -> same_model u s -> same_model t s.
Proof.
by rewrite /same_model => [[[-> -> -> -> ->] ->] [[-> -> -> -> ->] ->]].
Qed.

Lemma same_model_commit cfg t e :
  bound t -> fits t e (electron cfg e) (nseq (nconf_of t) true) ->
  same_model (commit cfg t e) t.
Proof. by move=> bt Hf; case: (after_static bt Hf) => [H1 [H2 _]]; split. Qed.

(** The log value of an instance whose caches mirror its snapshot is a
    function of the model and of the positions of the snapshot. *)
Lemma mirrors_logvalue s t :
  bound s -> bound t -> same_model t s -> nconf_of t = nconf_of s ->
  mirrors s -> mirrors t ->
  (forall w j, w < nconf_of s -> j < _nelec s -> pos_of t w j = pos_of s w j) ->
  logvalue t = logvalue s.
Proof.
move=> bs bt [[Ea Eb Eac Ebc En] Em] Ec ms mt Hpos.
apply: (@eq_from_nth _ 0); first by rewrite !size_logvalue.
move=> w; rewrite size_logvalue // Ec => Hw.
have Hw' : w < nconf_of t by rewrite Ec.
rewrite !nth_logvalue //.
have [Hap Hav Hbp Hbv] := ms w Hw; have [Hap' Hav' Hbp' Hbv'] := mt w Hw'.
congr (_ + _).
  rewrite /b_contract Eb Ebc; apply: eq_bigr => l _; apply: eq_bigr => c _.
  congr (_ * _); rewrite Hbv // Hbv' ?Eb // En.
  rewrite big_nat_cond [RHS]big_nat_cond; apply: eq_big => [i|i].
    by [].
  rewrite andbT => /andP [_ Hi]; rewrite big_mkcond [RHS]big_mkcond /=.
  rewrite big_nat_cond [RHS]big_nat_cond; apply: eq_bigr => j.
  rewrite andbT => /andP [_ Hj]; rewrite /edown_of Em.
  by case: ifP => // _; rewrite /pairval Eb !Hpos.
rewrite /a_contract Ea Eac Em; apply: eq_bigr => I _; apply: eq_bigr => k _.
apply: eq_bigr => sp _; congr (_ * _); rewrite Hav // Hav' // En.
rewrite big_mkcond [RHS]big_mkcond /=.
rewrite big_nat_cond [RHS]big_nat_cond; apply: eq_bigr => j.
rewrite andbT => /andP [_ Hj]; rewrite /edown_of Em.
case: ifP => // _; rewrite Hap // Hap' ?En //.
by rewrite /ionval /a_values /dist_ions Ea Em Hpos.
Qed.


Lemma same_model_sym t s : same_model t s -> same_model s t.
Proof. by rewrite /same_model => [[[-> -> -> -> ->] ->]]. Qed.

Lemma iota_rcons m n : iota m n.+1 = rcons (iota m n) (m + n)%N.
Proof. by rewrite -addn1 iotaD /= cats1. Qed.

Section Consistency.
Variables (s : JastrowSpin) (cfg0 cfg : Configs).
Hypothesis Hacc0 : accepts s cfg0.
Hypothesis Hacc : accepts s cfg.
Hypothesis Hsh : shape cfg0 = shape cfg.
Hypothesis even : b_even s.

Let s0 : JastrowSpin := after_recompute s cfg0.
Let moved (k : nat) : JastrowSpin := foldl (commit cfg) s0 (iota 0 k).

(** What holds of the instance between two commits. *)
Let Inv (t : JastrowSpin) : Prop :=
  [/\ bound t, mirrors t, same_model t s & nconf_of t = (shape cfg).1].

Lemma Inv_s0 : Inv s0.
Proof.
split.
- exact: after_recompute_bound.
- exact: after_recompute_mirrors.
- exact: same_model_recompute.
- by rewrite /s0 after_recompute_nconf // Hsh.
Qed.

Lemma commit_run t e :
  e \in iota 0 (shape cfg).2 -> Inv t ->
  updateinternals e (electron cfg e) None t = Return tt (commit cfg t e)
  /\ Inv (commit cfg t e).
Proof.
rewrite mem_iota add0n /= => He [bt mt Et Ec].
have [[_ Eb _ _ En] _] := Et.
have Hf : fits t e (electron cfg e) (nseq (nconf_of t) true).
  apply: fits_all; last by rewrite (size_electron Hacc).
  by rewrite En; case/and3P: Hacc => _ /eqP <-.
split; first by rewrite updateinternals_None updateinternals_spec // Hf.
split.
- exact: after_bound.
- apply: after_update_mirrors => //.
  by apply: b_even_basis even.
- by apply: same_model_trans Et; apply: same_model_commit.
- by case: (after_static bt Hf) => _ [_]; rewrite /nconf_of /commit => ->.
Qed.

Lemma move_all_run :
  move_all cfg s0 = Return tt (moved (shape cfg).2) /\ Inv (moved (shape cfg).2).
Proof. by apply: for_run Inv_s0 => t e; apply: commit_run. Qed.

Lemma Inv_moved k : k <= (shape cfg).2 -> Inv (moved k).
Proof.
elim: k => [|k IH] Hk; first exact: Inv_s0.
rewrite /moved iota_rcons foldl_rcons add0n.
by apply: (commit_run _ (IH (ltnW Hk))).2; rewrite mem_iota.
Qed.

(** After the first [k] commits the electrons below [k] are where [cfg]
    has them. *)
Lemma pos_moved k w j :
  k <= (shape cfg).2 -> w < (shape cfg).1 ->
  pos_of (moved k) w j =
  if j < k then nth v0 (nth [::] (configs cfg) w) j else pos_of s0 w j.
Proof.
move=> Hk Hw; elim: k Hk => [|k IH] Hk //.
have [bt mt Et Ec] := Inv_moved (ltnW Hk).
have [[_ _ _ _ En] _] := Et.
have szc : size (configs cfg) = (shape cfg).1.
  by case/and3P: Hacc => /andP [/eqP].
have Hf : fits (moved k) k (electron cfg k) (nseq (nconf_of (moved k)) true).
  apply: fits_all; last by rewrite (size_electron Hacc).
  by rewrite En; case/and3P: Hacc => _ /eqP <-.
rewrite {1}/moved iota_rcons foldl_rcons add0n -/(moved k) /commit after_pos //.
rewrite Ec nth_nseq Hw /= IH ?(ltnW Hk) // ltnS (leq_eqVlt j k).
case: eqP => [->|_] //=.
by rewrite /electron (nth_map [::]) ?szc.
Qed.

Lemma paths_agree :
  let u := logvalue (after_recompute s cfg) in
  recompute_path cfg s = Return (1, u) (after_recompute s cfg) /\
  incremental_path cfg0 cfg s = Return (1, u) (moved (shape cfg).2).
Proof.
have [Hrun [bt mt Et Ec]] := move_all_run.
split; first by rewrite /recompute_path /bind recompute_returns // value_run.
rewrite /incremental_path /bind recompute_returns // -/s0 Hrun value_run.
congr (Return (_, _) _); apply: mirrors_logvalue => //.
- exact: after_recompute_bound.
- by apply: same_model_trans Et _; apply/same_model_sym/same_model_recompute.
- by rewrite after_recompute_nconf.
- exact: after_recompute_mirrors.
- move=> w j; rewrite after_recompute_nconf // after_recompute_nelec // => Hw Hj.
  by rewrite pos_moved // Hj /pos_of after_recompute_row.
Qed.

End Consistency.

(** C2.  In exact arithmetic, the incremental-update path and the
    full-recompute path agree.
    For an ensemble [cfg], [recompute] followed by [value] returns the sign 1
    and a log value [u]; an instance that was bound to any ensemble [cfg0] of
    the same shape and then received, by [updateinternals] applied in turn
    to every electron, the positions of [cfg], returns from [value] the same
    sign and the same log value.  Cells are exact numbers here, so the two
    results are equal, which is within every tolerance; on doubles the two
    log values can differ by more than the relative tolerance [1e-10]. *)
Theorem incremental_path_agrees_with_recompute s cfg0 cfg :
  accepts s cfg0 -> accepts s cfg -> shape cfg0 = shape cfg -> b_even s ->
  exists u sA sB,
    [/\ recompute_path cfg s = Return (1, u) sA,
        incremental_path cfg0 cfg s = Return (1, u) sB
      & size u = (shape cfg).1].
Proof.
move=> Hacc0 Hacc Hsh even.
have [H1 H2] := paths_agree Hacc0 Hacc Hsh even.
exists (logvalue (after_recompute s cfg)), (after_recompute s cfg).
eexists; split; [exact: H1 | exact: H2 |].
by rewrite size_logvalue ?after_recompute_nconf //; apply: after_recompute_bound.
Qed.


(** ** Gradient and Laplacian *)

Lemma comp_coord (v : vec3) k : k < 3 -> comp v k = coord v k.
Proof. by case: k => [|[|[|]]]. Qed.

Lemma sumsq_sqnorm (g : nat -> R) : sumsq g = sqnorm g.
Proof.
by rewrite /sumsq /sqnorm !big_ord_recl big_ord0 /= addr0 -!expr2 addrA.
Qed.

(** The sums of lines 268-271 over the first [nup - eup] and over the other
    columns of [dnew], by electron index: the up and the down electrons
    other than [e]. *)
Lemma sums_dist_not_e s e w p (F : vec3 -> R) :
  bound s -> w < nconf_of s ->
  \sum_(x <- take (sep_of s e) (dist_not_e s e w p)) F x
  = \sum_(0 <= j < (nelec (_mol s)).1 | j != e) F (dist_i (pos_of s w j) p)
  /\ \sum_(x <- drop (sep_of s e) (dist_not_e s e w p)) F x
     = \sum_((nelec (_mol s)).1 <= j < _nelec s | j != e)
          F (dist_i (pos_of s w j) p).
Proof.
move=> bs Hw; have [szc rowc Hne Hnup _] := boundP bs.
have Hn := nup_le_nelec bs.
have [Ht Hd] := sums_not_e v0 e (fun c => F (dist_i c p)) (rowc w Hw) Hn.
by rewrite /dist_not_e -map_take -map_drop !big_map -/(row_of s w) /sep_of Ht Hd.
Qed.

Lemma dist_new_run s e epos :
  bound s -> size epos = nconf_of s ->
  dist_new e epos s =
  Return ([seq mask (arange_neq (_nelec s) e) r
          | r <- dist_rows (configs (_configscurrent s)) epos],
          [seq dist_ions s v | v <- epos]) s.
Proof.
move=> bs He; have [szc rowc Hne Hnup _] := boundP bs.
rewrite /dist_new /bind /= szc He eqxx /= /bool_index_axis1.
by rewrite size_arange_neq eqxx /= Hne.
Qed.

Lemma nth_dist_new s e epos w :
  bound s -> size epos = nconf_of s -> w < nconf_of s ->
  nth [::] [seq mask (arange_neq (_nelec s) e) r
           | r <- dist_rows (configs (_configscurrent s)) epos] w =
  dist_not_e s e w (nth v0 epos w).
Proof.
move=> bs He Hw; have [szc rowc Hne Hnup _] := boundP bs.
have sd : size (dist_rows (configs (_configscurrent s)) epos) = nconf_of s.
  by rewrite /dist_rows size_map size_zip szc He minnn.
rewrite (nth_map [::]) ?sd // /dist_rows (nth_map ([::], v0)) ?size_zip ?szc ?He ?minnn //.
by rewrite nth_zip ?szc ?He //= /dist_not_e map_mask.
Qed.

Lemma nth_zip_dist_new s e epos w :
  bound s -> size epos = nconf_of s -> w < nconf_of s ->
  nth ([::], [::])
    (zip [seq mask (arange_neq (_nelec s) e) r
         | r <- dist_rows (configs (_configscurrent s)) epos]
         [seq dist_ions s v | v <- epos]) w =
  (dist_not_e s e w (nth v0 epos w), dist_ions s (nth v0 epos w)).
Proof.
move=> bs He Hw; have [szc _ _ _ _] := boundP bs.
have sd : size [seq mask (arange_neq (_nelec s) e) r
               | r <- dist_rows (configs (_configscurrent s)) epos]
          = nconf_of s.
  by rewrite size_map /dist_rows size_map size_zip szc He minnn.
have si : size [seq dist_ions s v | v <- epos] = nconf_of s by rewrite size_map.
by rewrite nth_zip ?sd ?si // nth_dist_new // (nth_map v0) ?He.
Qed.

Lemma size_zip_dist_new s e epos :
  bound s -> size epos = nconf_of s ->
  size (zip [seq mask (arange_neq (_nelec s) e) r
            | r <- dist_rows (configs (_configscurrent s)) epos]
            [seq dist_ions s v | v <- epos]) = nconf_of s.
Proof.
move=> bs He; have [szc _ _ _ _] := boundP bs.
by rewrite size_zip !size_map size_zip szc He !minnn.
Qed.

Lemma gradient_laplacian_run s e epos :
  bound s -> size epos = nconf_of s ->
  exists g l,
    [/\ gradient_laplacian e epos s = Return (g, l) s,
        size g = nconf_of s, size l = nconf_of s
      & forall w, w < nconf_of s ->
          (forall k, k < 3 ->
             nth (fun _ => 0) g w k = gradU s e w (nth v0 epos w) k)
          /\ nth 0 l w
             = lapU s e w (nth v0 epos w) + sqnorm (nth (fun _ => 0) g w)].
Proof.
move=> bs He; rewrite /gradient_laplacian /bind /= dist_new_run //=.
have sz := size_zip_dist_new e bs He.
eexists; eexists; split; first by reflexivity.
- by rewrite size_map.
- by rewrite size_map size_zip !size_map sz minnn.
move=> w Hw; split.
  move=> k Hk; rewrite (nth_map ([::], [::])) ?sz // nth_zip_dist_new //=.
  rewrite /gradU /one_body /two_body /d1 /ion_sep; congr (_ + _).
    apply: eq_bigr => i _; apply: eq_bigr => I _.
    by rewrite comp_coord.
  apply: eq_bigr => l _.
  have [-> ->] := sums_dist_not_e e (nth v0 epos w)
    (fun x => comp (gl_of (nth f0 (b_basis s) l) x).1 k) bs Hw.
  by congr (_ * _ + _ * _); apply: eq_bigr => j _; rewrite comp_coord.
rewrite (nth_map (0, fun _ => 0)) ?size_zip ?size_map ?sz ?minnn //.
rewrite nth_zip ?size_map //= sumsq_sqnorm; congr (_ + _).
rewrite (nth_map ([::], [::])) ?sz // nth_zip_dist_new //=.
rewrite /lapU /two_body /d2 /ion_sep; congr (_ + _).
  apply: eq_bigr => i _; apply: eq_bigr => I _; apply: eq_bigr => k _.
  by rewrite comp_coord.
apply: eq_bigr => l _.
have [-> ->] := sums_dist_not_e e (nth v0 epos w)
  (fun x => \sum_(k < 3) comp (gl_of (nth f0 (b_basis s) l) x).2 k) bs Hw.
by congr (_ * _ + _ * _); apply: eq_bigr => j _; apply: eq_bigr => k _;
   rewrite comp_coord.
Qed.

(** C6.  The second output of [gradient_laplacian] is, for every walker,
    the Laplacian of [U] with respect to the position of electron [e], that
    is the coefficient-weighted sum of the second derivatives of the basis
    functions over the ions and over the other electrons, plus the squared
    norm of the gradient that the method returns as its first output (the
    identity for the Laplacian of [exp U] divided by [exp U]); that first
    output is the gradient of [U]; and [laplacian] returns the second
    output. *)
Theorem gradient_laplacian_applies_identity s e epos :
  bound s -> size epos = nconf_of s ->
  exists g l,
    [/\ gradient_laplacian e epos s = Return (g, l) s,
        laplacian e epos s = Return l s,
        size g = nconf_of s /\ size l = nconf_of s
      & forall w, w < nconf_of s ->
          nth 0 l w
          = lapU s e w (nth v0 epos w)
            + ((nth (fun _ => 0) g w 0%N) ^+ 2
               + (nth (fun _ => 0) g w 1%N) ^+ 2
               + (nth (fun _ => 0) g w 2%N) ^+ 2)
          /\ forall k, k < 3 ->
               nth (fun _ => 0) g w k = gradU s e w (nth v0 epos w) k].
Proof.
move=> bs He; have [g [l [Hrun sg sl Hgl]]] := gradient_laplacian_run e bs He.
exists g, l; split=> //; first by rewrite /laplacian /bind Hrun.
by move=> w /Hgl [Hg Hl].
Qed.


(** ** The sign and the log value *)

Lemma logvalue_same_caches s t : same_caches s t -> logvalue t = logvalue s.
Proof.
case=> Ea Eb Eac Ebc [En Esa Esb].
by rewrite /logvalue /b_contract /a_contract Ea Eb Eac Ebc En Esa Esb.
Qed.

(** C8.  The sign that [value] and [recompute] return is always 1, and
    [value] computes the log value of every walker from the cached
    [_bvalues] and [_avalues] contracted with the coefficient tensors as they
    are now: the sum over the two-body basis functions and the three
    channels of the cell of [_bvalues] times the coefficient, plus the sum
    over the ions, the one-body basis functions and the two spins of the
    cell of [_avalues] times the coefficient.  It always returns and leaves
    the instance as it is, and an instance with the same caches and
    coefficients returns the same pair whatever its basis functions, its
    partial sums and its snapshot are, so no basis function and no distance
    is evaluated.  Whenever [recompute] returns, its pair is the one that
    [value] then returns, with sign 1; and it does return for an ensemble
    that it accepts. *)
Theorem value_has_sign_one_and_reads_the_caches s :
  [/\ exists u,
        [/\ value s = Return (1, u) s,
            size u = minn (size (_bvalues s)) (size (_avalues s))
          & forall w, w < size u ->
              nth 0 u w =
              \sum_(l < size (b_basis s)) \sum_(c < 3)
                 bv_of s w l c * bcoeff s l c
              + \sum_(I < natm (_mol s)) \sum_(k < size (a_basis s))
                  \sum_(sp < 2) av_of s w I k sp * acoeff s I k sp],
      forall t, same_caches s t -> value t = Return (1, logvalue s) t,
      forall cfg sg u s',
        recompute cfg s = Return (sg, u) s' ->
        sg = 1 /\ value s' = Return (sg, u) s'
    & forall cfg, accepts s cfg ->
        exists u s', recompute cfg s = Return (1, u) s'].
Proof.
split=> [|t Ht|cfg sg u s'|cfg Hacc].
- exists (logvalue s); split; first exact: value_run.
    by rewrite /logvalue size_map size_zip size_map.
  by move=> w Hw; rewrite nth_logvalue_gen.
- by rewrite value_run (logvalue_same_caches Ht).
- rewrite /recompute /bind /=; case: (for_ _ _ _) => [[] t|t] //=.
  by rewrite value_run; case=> <- <- <-.
- by eexists; eexists; apply: recompute_returns.
Qed.


(** ** Further properties of the methods *)

Lemma readonly_dist_new e epos : readonly (dist_new e epos).
Proof.
apply: readonly_bind; first exact: readonly_self.
move=> s; do 2![apply: readonly_bind; first exact: readonly_numpy; move=> ?].
exact: readonly_ret.
Qed.

(** X1.  The queries never write: [gradient], [gradient_laplacian],
    [laplacian], [value] and [pgradient] leave the instance as they find it,
    for every electron index and every proposed position, whether they
    return or raise. *)
Theorem queries_do_not_mutate e epos s :
  [/\ final_state (gradient e epos s) = s,
      final_state (gradient_laplacian e epos s) = s,
      final_state (laplacian e epos s) = s,
      final_state (value s) = s
    & final_state (pgradient s) = s].
Proof.
have Hgl : readonly (gradient_laplacian e epos).
  apply: readonly_bind; first exact: readonly_self.
  move=> s1; apply: readonly_bind; first exact: readonly_dist_new.
  by move=> dd; apply: readonly_ret.
split=> //; last by apply: readonly_bind => // gl; apply: readonly_ret.
apply: readonly_bind; first exact: readonly_self.
move=> s1; apply: readonly_bind; first exact: readonly_dist_new.
by move=> dd; apply: readonly_ret.
Qed.

(** X2.  On a bound instance [updateinternals] raises, and writes nothing,
    when the electron index is not an index of the ensemble, and when the
    proposed positions are not one per walker; this for a given mask and for
    an omitted one. *)
Theorem updateinternals_rejects_bad_arguments s e epos mask :
  bound s -> (_nelec s <= e)%N || (size epos != nconf_of s) ->
  updateinternals e epos mask s = Raise s.
Proof.
move=> bs Hbad; case: mask => [m|]; rewrite ?updateinternals_None;
  apply: updateinternals_raise => //; rewrite /fits.
- case/orP: Hbad => [He|Hs]; first by rewrite ltnNge He !andbF.
  case: (eqVneq (size m) (size epos)) => //= Em.
  by rewrite Em (negbTE Hs).
- case/orP: Hbad => [He|Hs]; first by rewrite ltnNge He !andbF.
  by rewrite size_nseq eq_sym (negbTE Hs).
Qed.

(** X3.  [updateinternals] keeps the shapes of the snapshot and of the four
    caches: a bound instance is bound after the call, for every argument,
    whether the call returns or raises. *)
Theorem updateinternals_keeps_shapes s e epos mask :
  bound s -> bound (final_state (updateinternals e epos mask s)).
Proof.
by move=> bs; rewrite final_update //=; case: ifP => // Hf; apply: after_bound.
Qed.

(** X4.  [testvalue] with a mask returns one ratio per selected walker, and
    the ratio of a selected walker is the ratio that [testvalue] without a
    mask returns for that walker. *)
Theorem masked_testvalue_selects_ratios s e epos m :
  bound s -> fits s e epos m ->
  exists r rall,
    [/\ testvalue e epos (Some m) s = Return r s,
        testvalue e epos None s = Return rall s,
        size r = count id m /\ size rall = nconf_of s
      & forall w, nth false m w -> nth 0 r (rank m w) = nth 0 rall w].
Proof.
move=> bs Hf; case/and3P: (Hf) => /eqP Em /eqP Ec He.
have se : size epos = nconf_of s by rewrite -Em.
have Hall := fits_all He se.
have [r [Hr sr Hnth]] := testvalue_run bs Hf.
have [rall [Hrall srall Hnthall]] := testvalue_run bs Hall.
exists r, rall; split=> //; first by rewrite /testvalue se.
  by rewrite srall count_nseq_true.
move=> w Hw; have Hwn : w < nconf_of s.
  by rewrite -Ec ltnNge; apply/negP => /(nth_default false); rewrite Hw.
by rewrite Hnth // -[w in RHS](rank_nseq_true (ltnW Hwn)) Hnthall ?nth_nseq_true.
Qed.



Lemma gradient_run s e epos :
  bound s -> size epos = nconf_of s ->
  exists g,
    [/\ gradient e epos s = Return g s, size g = nconf_of s
      & forall w k, w < nconf_of s -> k < 3 ->
          nth (fun _ => 0) g w k =
          two_body s e w (nth v0 epos w) (fun f d => dg f d k)
          + one_body s e (nth v0 epos w) (fun f d => dg f d k)].
Proof.
move=> bs He; rewrite /gradient /bind /= dist_new_run //=.
have sz := size_zip_dist_new e bs He.
eexists; split; first by reflexivity.
  by rewrite size_map.
move=> w k Hw Hk; rewrite (nth_map ([::], [::])) ?sz // nth_zip_dist_new //=.
rewrite /two_body /one_body /dg /ion_sep; congr (_ + _).
  apply: eq_bigr => l _.
  have [-> ->] := sums_dist_not_e e (nth v0 epos w)
    (fun x => comp (grad_of (nth f0 (b_basis s) l) x) k) bs Hw.
  by congr (_ * _ + _ * _); apply: eq_bigr => j _; rewrite comp_coord.
apply: eq_bigr => i _; apply: eq_bigr => I _.
by rewrite comp_coord.
Qed.

(** X6.  On a bound instance and for one proposed position per walker,
    [gradient] returns, for every walker and component, the sum of the
    two-body terms followed by the one-body terms, in the order in which the
    method accumulates them: for every two-body basis function, its
    coefficient of channel [sp] times the sum of its gradients over the up
    electrons other than [e], plus its coefficient of channel [1 + sp] times
    the sum over the down electrons other than [e]; then, for every one-body
    basis function and ion, the coefficient of the spin [sp] of [e] times
    the gradient.  The electron is never paired with itself. *)
Theorem gradient_sums_basis_gradients s e epos :
  bound s -> size epos = nconf_of s ->
  exists g,
    [/\ gradient e epos s = Return g s, size g = nconf_of s
      & forall w k, w < nconf_of s -> k < 3 ->
          nth (fun _ => 0) g w k =
          two_body s e w (nth v0 epos w) (fun f d => dg f d k)
          + one_body s e (nth v0 epos w) (fun f d => dg f d k)].
Proof.
move=> bs He; have [g [Hrun sg Hg]] := gradient_run e bs He.
by exists g; split.
Qed.

(** X11.  When the [gradient_laplacian] of every basis function carries
    the gradient that its [gradient] returns, [gradient] and the first
    output of [gradient_laplacian] add the same two groups of terms, the
    one-body group [A] and the two-body group [B], in opposite orders:
    [gradient] returns [B + A] and [gradient_laplacian] returns [A + B]. *)
Theorem gradient_and_gradient_laplacian_add_the_same_groups s e epos :
  bound s -> size epos = nconf_of s ->
  (forall i, carries_gradient (nth f0 (a_basis s) i)) ->
  (forall l, carries_gradient (nth f0 (b_basis s) l)) ->
  exists g gl,
    [/\ gradient e epos s = Return g s,
        gradient_laplacian e epos s = Return gl s
      & forall w k, w < nconf_of s -> k < 3 ->
          let A := one_body s e (nth v0 epos w) (fun f d => dg f d k) in
          let B := two_body s e w (nth v0 epos w) (fun f d => dg f d k) in
          nth (fun _ => 0) g w k = B + A
          /\ nth (fun _ => 0) gl.1 w k = A + B].
Proof.
move=> bs He Hga Hgb; have [g [Hrun sg Hg]] := gradient_run e bs He.
have [g' [lp [Hrun' _ _ Hgl]]] := gradient_laplacian_run e bs He.
exists g, (g', lp); split=> // w k Hw Hk /=; split; first exact: Hg.
have [-> // _] := Hgl w Hw.
rewrite /gradU /one_body /two_body /d1 /dg; congr (_ + _).
  by apply: eq_bigr => i _; apply: eq_bigr => I _; rewrite Hga.
apply: eq_bigr => l _.
by congr (_ * _ + _ * _); apply: eq_bigr => j _; rewrite Hgb.
Qed.

(** The cells of the caches of an instance that mirrors its snapshot are
    functions of the model and of the positions. *)
Lemma mirrors_cells s t w :
  same_model t s -> w < nconf_of s -> w < nconf_of t ->
  mirrors s -> mirrors t ->
  (forall j, j < _nelec s -> pos_of t w j = pos_of s w j) ->
  [/\ forall e I k, e < _nelec s -> ap_of t e w I k = ap_of s e w I k,
      forall I k sp, sp < 2 -> av_of t w I k sp = av_of s w I k sp,
      forall e l sp, e < _nelec s -> l < size (b_basis s) -> sp < 2 ->
        bp_of t e w l sp = bp_of s e w l sp
    & forall l c, l < size (b_basis s) -> c < 3 ->
        bv_of t w l c = bv_of s w l c].
Proof.
move=> [[Ea Eb Eac Ebc En] Em] Hw Hw' ms mt Hpos.
have [Hap Hav Hbp Hbv] := ms w Hw; have [Hap' Hav' Hbp' Hbv'] := mt w Hw'.
have Eap e I k : e < _nelec s -> ap_of t e w I k = ap_of s e w I k.
  move=> He; rewrite Hap // Hap' ?En //.
  by rewrite /ionval /a_values /dist_ions Ea Em Hpos.
have Epv l i j : i < _nelec s -> j < _nelec s ->
    pairval t w l i j = pairval s w l i j.
  by move=> Hi Hj; rewrite /pairval Eb !Hpos.
split=> //.
- move=> I k sp Hsp; rewrite Hav // Hav' // En.
  rewrite big_nat_cond [RHS]big_nat_cond; apply: eq_big => [j|j].
    by rewrite /edown_of Em.
  by case/andP => /andP [_ Hj] _; apply: Eap.
- move=> e l sp He Hl Hsp; rewrite Hbp // Hbp' ?En ?Eb //.
  rewrite big_nat_cond [RHS]big_nat_cond; apply: eq_big => [j|j].
    by rewrite /edown_of Em.
  by case/andP => /andP [_ Hj] _; apply: Epv.
- move=> l c Hl Hc; rewrite Hbv // Hbv' ?Eb // En.
  rewrite big_nat_cond [RHS]big_nat_cond; apply: eq_bigr => i.
  rewrite andbT => /andP [_ Hi].
  rewrite big_nat_cond [RHS]big_nat_cond; apply: eq_big => [j|j].
    by rewrite /edown_of Em.
  by case/andP => /andP [_ Hj] _; apply: Epv.
Qed.

(** X7.  [recompute] forgets what the instance held before: two instances
    of one model, whatever their caches and snapshots, return from
    [recompute] on one ensemble the same pair and are left with the same
    snapshot and the same cells in the four caches.  In particular a second
    [recompute] on the same ensemble changes nothing. *)
Theorem recompute_forgets_earlier_state s t cfg :
  accepts s cfg -> same_model t s ->
  exists u s1 t1,
    [/\ recompute cfg s = Return (1, u) s1,
        recompute cfg t = Return (1, u) t1,
        _configscurrent t1 = _configscurrent s1
      & forall w, w < (shape cfg).1 ->
        [/\ forall e I k, e < _nelec s -> ap_of t1 e w I k = ap_of s1 e w I k,
            forall I k sp, sp < 2 -> av_of t1 w I k sp = av_of s1 w I k sp,
            forall e l sp, e < _nelec s -> l < size (b_basis s) -> sp < 2 ->
              bp_of t1 e w l sp = bp_of s1 e w l sp
          & forall l c, l < size (b_basis s) -> c < 3 ->
              bv_of t1 w l c = bv_of s1 w l c]].
Proof.
move=> Hs Et; have Ht : accepts t cfg.
  by move: Hs; rewrite /accepts; case: Et => [[_ _ _ _ ->] ->].
have Es1 := same_model_recompute Hs; have Et1 := same_model_recompute Ht.
have E1 : same_model (after_recompute t cfg) (after_recompute s cfg).
  apply: same_model_trans Et1 _; apply: same_model_trans Et _.
  exact: same_model_sym.
have Epos w j : pos_of (after_recompute t cfg) w j
                = pos_of (after_recompute s cfg) w j.
  by rewrite /pos_of !after_recompute_row.
exists (logvalue (after_recompute s cfg)), (after_recompute s cfg),
  (after_recompute t cfg); split.
- exact: recompute_returns.
- rewrite recompute_returns //; congr (Return (_, _) _).
  apply: mirrors_logvalue => //; try exact: after_recompute_bound.
  + by rewrite !after_recompute_nconf.
  + exact: after_recompute_mirrors.
  + exact: after_recompute_mirrors.
- have [_ [_ ->]] := after_recompute_inputs Ht.
  by have [_ [_ ->]] := after_recompute_inputs Hs.
move=> w Hw; have [[_ Eb _ _ En] _] := Es1.
rewrite -En -Eb; apply: mirrors_cells => //; rewrite ?after_recompute_nconf //;
  exact: after_recompute_mirrors.
Qed.


(** X8.  [recompute] on an ensemble whose electron count is not that of
    the molecule raises in the first iteration of the loop of lines 73-76,
    at the boolean index [not_e] of [_b_update]; the instance is then bound
    to the copy of that ensemble, with the caches that lines 68-71
    allocated. *)
Theorem recompute_rejects_wrong_electron_count s cfg :
  wf_configs cfg -> 0 < (shape cfg).2 -> (shape cfg).2 != _nelec s ->
  exists s',
    [/\ recompute cfg s = Raise s', _configscurrent s' = copy cfg,
        _avalues s' = nseq (shape cfg).1 zeros3
      & _bvalues s' = nseq (shape cfg).1 zeros2].
Proof.
case/andP => /eqP szc _; case En: (shape cfg).2 => [|n] // _ Hne.
rewrite /recompute /bind /= En /= /recompute_partials /bind /=.
rewrite _a_update_run ?size_nseq ?size_map ?szc //=.
rewrite /_b_update /dist_others /bind /= bool_index_ok ?size_nseq ?szc //=.
rewrite /bool_index_axis1 size_arange_neq En eq_sym (negbTE Hne) /=.
by eexists; split; first by reflexivity.
Qed.

(** X9.  [_b_update] returns, for every selected walker, every two-body
    basis function and each spin, the sum of the basis values between the
    proposed position and the electrons of that spin other than [e]: the
    electron is never paired with itself, and the instance is not
    changed. *)
Theorem b_update_sums_over_other_electrons s e epos m :
  bound s -> fits s e epos m ->
  exists r,
    [/\ _b_update e epos m s = Return r s, size r = count id m
      & forall w l sp, nth false m w -> sp < 2 ->
          nth zeros2 r (rank m w) l sp =
          \sum_(0 <= j < _nelec s | (j != e) && (edown_of s j == sp))
             val (nth f0 (b_basis s) l)
               (dist_i (pos_of s w j) (nth v0 epos w))].
Proof.
move=> bs Hf; case/and3P: (Hf) => /eqP Em /eqP Ec He.
rewrite _b_update_run //; eexists; split; first by reflexivity.
  by rewrite size_map (size_dist_rows bs Hf).
move=> w l sp Hw Hsp; have Hwn : w < nconf_of s.
  by rewrite -Ec ltnNge; apply/negP => /(nth_default false); rewrite Hw.
rewrite (nth_map [::]) ?(size_dist_rows bs Hf) ?rank_lt //.
by rewrite (nth_dist_rows bs Hf) // b_sums_index.
Qed.


(** The exponent of the ratio of a walker is not changed by an update that
    does not select the walker. *)
Lemma delta_u_unmasked s e epos m w p :
  bound s -> fits s e epos m -> nth false m w = false ->
  delta_u (after_update s e epos m) e w p = delta_u s e w p.
Proof.
move=> bs Hf Hw.
have [[Ea Eb Eac Ebc En] [Em _]] := after_static bs Hf.
rewrite /delta_u /b_delta_contract /a_delta_contract /edown_of /sep_of.
rewrite /b_sums /a_values /dist_ions /dist_not_e Ea Eb Eac Ebc En Em.
by rewrite after_row // Hw unmasked_bp // after_ap // Hw.
Qed.

(** X10.  The walkers are independent: committing a move for the walkers
    of a mask and then for the walkers of the complementary mask leaves the
    log value that committing it for all walkers at once leaves. *)
Theorem two_batches_give_the_value_of_one_update s e epos m :
  bound s -> fits s e epos m ->
  exists u s2 sall,
    (updateinternals e epos (Some m) ;;;
     updateinternals e epos (Some (map negb m)) ;;; value) s
    = Return (1, u) s2
    /\ (updateinternals e epos None ;;; value) s = Return (1, u) sall.
Proof.
move=> bs Hf; case/and3P: (Hf) => /eqP Em /eqP Ec He.
have se : size epos = nconf_of s by rewrite -Em.
have Hall := fits_all He se.
pose s1 := after_update s e epos m.
have bs1 : bound s1 by apply: after_bound.
have [[_ _ _ _ En] [_ Esh]] := after_static bs Hf.
have Ec1 : nconf_of s1 = nconf_of s by rewrite /nconf_of Esh.
have Hf1 : fits s1 e epos (map negb m).
  by rewrite /fits size_map Em Ec1 -Em Ec !eqxx /= En.
pose s2 := after_update s1 e epos (map negb m).
pose sall := after_update s e epos (nseq (nconf_of s) true).
have bs2 : bound s2 by apply: after_bound.
have bsall : bound sall by apply: after_bound.
have Ec2 : nconf_of s2 = nconf_of s.
  by have [_ [_ E]] := after_static bs1 Hf1; rewrite /nconf_of E -/(nconf_of s1).
have Ecall : nconf_of sall = nconf_of s.
  by have [_ [_ E]] := after_static bs Hall; rewrite /nconf_of E.
exists (logvalue sall), s2, sall; split; last first.
  by rewrite /bind updateinternals_None updateinternals_spec // Hall value_run.
rewrite /bind updateinternals_spec // Hf updateinternals_spec // Hf1 value_run.
congr (Return (_, _) _); apply: (@eq_from_nth _ 0).
  by rewrite !size_logvalue // Ec2 Ecall.
move=> w; rewrite size_logvalue // Ec2 => Hw.
rewrite /s2 /sall !logvalue_after ?Ec1 // nth_nseq_true //.
rewrite (nth_map false) ?Ec //.
case Hmw: (nth false m w) => //=.
by rewrite delta_u_unmasked.
Qed.

End Jastrow.

(** * A concrete instance

    One ion at the origin, one up and one down electron, two walkers, cells
    in the integers.  The one basis function of each term returns the
    squared length of the separation, which stands for the norm here; its
    gradient is [2 d] and its second derivatives are [(2, 2, 2)]. *)

Module TwoElectron.
Local Open Scope ring_scope.

Definition exp (x : int) : int := x.
Definition norm (v : vec3 int) : int := v.1.1 ^+ 2 + v.1.2 ^+ 2 + v.2 ^+ 2.
Definition dist_i (c v : vec3 int) : vec3 int :=
  (v.1.1 - c.1.1, v.1.2 - c.1.2, v.2 - c.2).

Local Notation vec3 := (vec3 int).
Local Notation v0 :=
  (@v0 int 0).
Local Notation comp := (comp (T:=int)).
Local Notation func3d := (func3d int).
Local Notation f0 :=
  (@f0 int 0).
Local Notation Mol := (Mol int).
Local Notation Configs := (Configs int).
Local Notation Epos := (Epos int).
Local Notation copy := (copy (T:=int)).
Local Notation electron :=
  (@electron int 0).
Local Notation move :=
  (@move int 0).
Local Notation dist_matrix :=
  (@dist_matrix int dist_i).
Local Notation pairwise :=
  (@pairwise int dist_i).
Local Notation cell2 := (cell2 int).
Local Notation cell3 := (cell3 int).
Local Notation zeros2 :=
  (@zeros2 int 0).
Local Notation zeros3 :=
  (@zeros3 int 0).
Local Notation JastrowSpin := (JastrowSpin int).
Local Notation set_configscurrent := (set_configscurrent (T:=int)).
Local Notation set_avalues := (set_avalues (T:=int)).
Local Notation set_bvalues := (set_bvalues (T:=int)).
Local Notation set_a_partial := (set_a_partial (T:=int)).
Local Notation set_b_partial := (set_b_partial (T:=int)).
Local Notation set_acoeff := (set_acoeff (T:=int)).
Local Notation set_bcoeff := (set_bcoeff (T:=int)).
Local Notation init :=
  (@init int 0).
Local Notation outcome := (outcome int).
Local Notation M := (M int).
Local Notation ret := (ret (T:=int)).
Local Notation bind := (bind (T:=int)).
Local Notation self := (self (T:=int)).
Local Notation assign := (assign (T:=int)).
Local Notation numpy := (numpy (T:=int)).
Local Notation final_state := (final_state (T:=int)).
Local Notation returned := (returned (T:=int)).
Local Notation for_ := (for_ (T:=int)).
Local Notation val :=
  (@val int norm).
Local Notation edown_of := (edown_of (T:=int)).
Local Notation sep_of := (sep_of (T:=int)).
Local Notation dist_ions :=
  (@dist_ions int dist_i).
Local Notation dist_rows :=
  (@dist_rows int dist_i).
Local Notation a_values :=
  (@a_values int 0 norm).
Local Notation _a_update :=
  (@_a_update int 0 norm dist_i).
Local Notation dist_others :=
  (@dist_others int dist_i).
Local Notation b_sums :=
  (@b_sums int +%R 0 norm).
Local Notation _b_update :=
  (@_b_update int +%R 0 norm dist_i).
Local Notation b_contract :=
  (@b_contract int +%R *%R 0).
Local Notation a_contract :=
  (@a_contract int +%R *%R 0).
Local Notation a_delta_contract :=
  (@a_delta_contract int +%R *%R 0).
Local Notation b_delta_contract :=
  (@b_delta_contract int +%R *%R 0).
Local Notation sub2 :=
  (@sub2 int (fun x y => x - y)).
Local Notation value :=
  (@value int +%R *%R 0 1).
Local Notation testvalue :=
  (@testvalue int +%R (fun x y => x - y) *%R 0 exp norm dist_i).
Local Notation Pgradient := (Pgradient int).
Local Notation pgradient := (pgradient (T:=int)).
Local Notation add_slot3 :=
  (@add_slot3 int +%R).
Local Notation add_slice2 :=
  (@add_slice2 int +%R).
Local Notation add_col :=
  (@add_col int +%R).
Local Notation set_cols := (set_cols (T:=int)).
Local Notation bdiffT :=
  (@bdiffT int (fun x y => x - y) 0 norm).
Local Notation cross_row :=
  (@cross_row int +%R (fun x y => x - y) 0 norm).
Local Notation own_row :=
  (@own_row int +%R 0 norm).
Local Notation loop_b_partial :=
  (@loop_b_partial int +%R (fun x y => x - y) 0 norm).
Local Notation _update_b_partial :=
  (@_update_b_partial int +%R (fun x y => x - y) 0 norm dist_i).
Local Notation updateinternals :=
  (@updateinternals int +%R (fun x y => x - y) 0 norm dist_i).
Local Notation recompute_partials :=
  (@recompute_partials int +%R 0 norm dist_i).
Local Notation bvalues_of :=
  (@bvalues_of int +%R 0 norm dist_i).
Local Notation avalues_of :=
  (@avalues_of int +%R 0 norm).
Local Notation recompute :=
  (@recompute int +%R *%R 0 1 norm dist_i).
Local Notation dist_new :=
  (@dist_new int dist_i).
Local Notation grad_of :=
  (@grad_of int norm).
Local Notation gl_of :=
  (@gl_of int norm).
Local Notation gradient :=
  (@gradient int +%R *%R 0 norm dist_i).
Local Notation sumsq :=
  (@sumsq int +%R *%R 0).
Local Notation gradient_laplacian :=
  (@gradient_laplacian int +%R *%R 0 norm dist_i).
Local Notation laplacian :=
  (@laplacian int +%R *%R 0 norm dist_i).
Local Notation recompute_path :=
  (@recompute_path int +%R *%R 0 1 norm dist_i).
Local Notation move_all :=
  (@move_all int +%R (fun x y => x - y) 0 norm dist_i).
Local Notation incremental_path :=
  (@incremental_path int +%R (fun x y => x - y) *%R 0 1 norm dist_i).

Definition dbl (d : vec3) : vec3 := (d.1.1 *+ 2, d.1.2 *+ 2, d.2 *+ 2).
Definition quad : func3d :=
  Func3d (fun _ r => r) (fun d _ => dbl d) (fun d _ => (dbl d, (2, 2, 2))).

Definition mol : Mol := MkMol 1 (1%N, 1%N) [:: (0, 0, 0)].
Definition cfg0 : Configs :=
  MkConfigs (2%N, 2%N) [:: [:: (1, 0, 0); (0, 1, 0)]; [:: (0, 0, 2); (3, 0, 0)]].
Definition cfg1 : Configs :=
  MkConfigs (2%N, 2%N) [:: [:: (2, 2, 2); (0, 0, 1)]; [:: (1, 1, 1); (0, 5, 0)]].
Definition fresh : JastrowSpin :=
  set_bcoeff (fun l c => (l + c)%:Z + 1)
    (set_acoeff (fun I k sp => sp%:Z + 2) (init mol [:: quad] [:: quad])).
Definition s1 : JastrowSpin := after_recompute norm dist_i fresh cfg0.
Definition epos : Epos := [:: (2, 2, 2); (1, 1, 1)].

Lemma accepts_cfg0 : accepts fresh cfg0.
Proof. by []. Qed.

Lemma accepts_cfg1 : accepts fresh cfg1.
Proof. by []. Qed.

Lemma bound_s1 : bound s1.
Proof. exact: after_recompute_bound. Qed.

Lemma norm_sym (x y : vec3) : norm (dist_i x y) = norm (dist_i y x).
Proof.
rewrite /norm /dist_i /=.
by rewrite -[in LHS]sqrrN opprB -[X in _ + X + _]sqrrN opprB -[X in _ + X]sqrrN opprB.
Qed.

Lemma quad_even (s : JastrowSpin) :
  b_basis s = [:: quad] -> b_even norm dist_i s.
Proof.
by rewrite /b_even => -> [|l] x y // _; rewrite /val /= norm_sym.
Qed.

Lemma nconf_s1 : nconf_of s1 = 2%N.
Proof. exact: after_recompute_nconf. Qed.

Lemma nelec_s1 : _nelec s1 = 2%N.
Proof. exact: after_recompute_nelec. Qed.

(** The ratio of moving the up electron in both walkers. *)
Lemma ratio_of_up_electron :
  exists r u u' s',
    [/\ testvalue 0 epos (Some (nseq (nconf_of s1) true)) s1
        = Return r s1,
        value s1 = Return (1, u) s1,
        updateinternals 0 epos None s1 = Return tt s',
        value s' = Return (1, u') s'
      & size r = nconf_of s1 /\
        forall w, w < nconf_of s1 -> nth 0 r w = exp (nth 0 u' w - nth 0 u w)].
Proof.
apply: testvalue_is_exp_of_logvalue_change; first exact: bound_s1.
  by rewrite nelec_s1.
by rewrite nconf_s1.
Defined.

(** A move accepted by the first walker only leaves the second as it was. *)
Lemma second_walker_untouched :
  let s' := final_state
    (updateinternals 0 epos (Some [:: true; false]) s1) in
  [/\ av_of s' 1 = av_of s1 1, bv_of s' 1 = bv_of s1 1,
      forall o, ap_of s' o 1 = ap_of s1 o 1,
      forall o, bp_of s' o 1 = bp_of s1 o 1
    & row_of s' 1 = row_of s1 1].
Proof.
by apply: updateinternals_leaves_unmasked_walkers; first exact: bound_s1.
Defined.

(** A mask of one entry for two walkers. *)
Lemma short_mask_raises :
  updateinternals 0 epos (Some [:: true]) s1 = Raise s1.
Proof.
apply: updateinternals_mask_length_mismatch_raises; first exact: bound_s1.
by rewrite nconf_s1.
Defined.

Lemma omitted_mask_on_two_walkers :
  let all_true := nseq (nconf_of s1) true in
  [/\ updateinternals 0 epos None s1
      = updateinternals 0 epos (Some all_true) s1,
      testvalue 0 epos None s1
      = testvalue 0 epos (Some all_true) s1
    & bound s1 -> 0 < _nelec s1 ->
      (exists2 r, testvalue 0 epos None s1 = Return r s1
         & size r = nconf_of s1)
      /\ (exists2 s', updateinternals 0 epos None s1 = Return tt s'
            & forall w, w < nconf_of s1 -> pos_of s' w 0 = nth v0 epos w)].
Proof. by apply: omitted_mask_is_all_true; rewrite nconf_s1. Defined.

(** The invariants after a recompute and a masked update. *)
Lemma invariants_after_masked_update :
  let s2 := final_state
    (updateinternals 0 epos (Some [:: true; false]) s1) in
  [/\ I1 s2 0, I2 norm dist_i s2 0 & I3 norm dist_i s2 0].
Proof.
have Hr : reachable norm dist_i
    (final_state
       (updateinternals 0 epos (Some [:: true; false]) s1)).
  by apply: reach_update; apply: reach_recompute accepts_cfg0.
apply: invariants_hold_along_a_run => //.
by apply: quad_even.
Defined.

(** Moving both electrons from [cfg0] to [cfg1], against binding to
    [cfg1]. *)
Lemma paths_agree_on_cfg1 :
  exists u sA sB,
    [/\ recompute_path cfg1 fresh = Return (1, u) sA,
        incremental_path cfg0 cfg1 fresh = Return (1, u) sB
      & size u = (shape cfg1).1].
Proof.
apply: incremental_path_agrees_with_recompute => //.
exact: quad_even.
Defined.

Lemma laplacian_of_up_electron :
  exists g l,
    [/\ gradient_laplacian 0 epos s1 = Return (g, l) s1,
        laplacian 0 epos s1 = Return l s1,
        size g = nconf_of s1 /\ size l = nconf_of s1
      & forall w, w < nconf_of s1 ->
          nth 0 l w
          = lapU norm dist_i s1 0 w (nth v0 epos w)
            + ((nth (fun _ => 0) g w 0%N) ^+ 2
               + (nth (fun _ => 0) g w 1%N) ^+ 2
               + (nth (fun _ => 0) g w 2%N) ^+ 2)
          /\ forall k, k < 3 ->
               nth (fun _ => 0) g w k
               = gradU norm dist_i s1 0 w (nth v0 epos w) k].
Proof.
apply: gradient_laplacian_applies_identity; first exact: bound_s1.
by rewrite nconf_s1.
Defined.

Lemma fits_first_walker : fits s1 0 epos [:: true; false].
Proof. by rewrite /fits nconf_s1 nelec_s1. Qed.

(** An electron index past the two electrons. *)
Lemma third_electron_is_rejected :
  updateinternals 2 epos None s1 = Raise s1.
Proof.
apply: updateinternals_rejects_bad_arguments; first exact: bound_s1.
by rewrite nelec_s1.
Defined.

Lemma shapes_after_masked_update :
  bound (final_state
           (updateinternals 0 epos (Some [:: true; false]) s1)).
Proof. by apply: updateinternals_keeps_shapes; exact: bound_s1. Defined.

Lemma ratio_of_first_walker :
  exists r rall,
    [/\ testvalue 0 epos (Some [:: true; false]) s1
        = Return r s1,
        testvalue 0 epos None s1 = Return rall s1,
        size r = count id [:: true; false] /\ size rall = nconf_of s1
      & forall w, nth false [:: true; false] w ->
          nth 0 r (rank [:: true; false] w) = nth 0 rall w].
Proof.
apply: masked_testvalue_selects_ratios; first exact: bound_s1.
exact: fits_first_walker.
Defined.


Lemma gradient_of_up_electron :
  exists g,
    [/\ gradient 0 epos s1 = Return g s1, size g = nconf_of s1
      & forall w k, w < nconf_of s1 -> k < 3 ->
          nth (fun _ => 0) g w k =
          two_body dist_i s1 0 w (nth v0 epos w)
            (fun f d => dg norm f d k)
          + one_body dist_i s1 0 (nth v0 epos w)
              (fun f d => dg norm f d k)].
Proof.
apply: gradient_sums_basis_gradients; first exact: bound_s1.
by rewrite nconf_s1.
Defined.

Lemma a_basis_s1 : a_basis s1 = [:: quad].
Proof. by case: (same_model_recompute norm dist_i accepts_cfg0) => [[->]]. Qed.

Lemma b_basis_s1 : b_basis s1 = [:: quad].
Proof. by case: (same_model_recompute norm dist_i accepts_cfg0) => [[_ ->]]. Qed.

Lemma quad_carries_gradient i : carries_gradient norm (nth f0 [:: quad] i).
Proof. by case: i => [|[|i]]. Qed.

(** The basis function [quad] returns the same gradient from both of its
    methods. *)
Lemma both_gradients_of_up_electron :
  exists g gl,
    [/\ gradient 0 epos s1 = Return g s1,
        gradient_laplacian 0 epos s1 = Return gl s1
      & forall w k, w < nconf_of s1 -> k < 3 ->
          let A := one_body dist_i s1 0 (nth v0 epos w)
                     (fun f d => dg norm f d k) in
          let B := two_body dist_i s1 0 w (nth v0 epos w)
                     (fun f d => dg norm f d k) in
          nth (fun _ => 0) g w k = B + A
          /\ nth (fun _ => 0) gl.1 w k = A + B].
Proof.
apply: gradient_and_gradient_laplacian_add_the_same_groups.
- exact: bound_s1.
- by rewrite nconf_s1.
- by rewrite a_basis_s1; exact: quad_carries_gradient.
- by rewrite b_basis_s1; exact: quad_carries_gradient.
Defined.

(** A second [recompute] on the same ensemble. *)
Lemma rebinding_is_idempotent :
  exists u t0 t1,
    [/\ recompute cfg0 fresh = Return (1, u) t0,
        recompute cfg0 s1 = Return (1, u) t1,
        _configscurrent t1 = _configscurrent t0
      & forall w, w < (shape cfg0).1 ->
        [/\ forall e I k, e < _nelec fresh ->
              ap_of t1 e w I k = ap_of t0 e w I k,
            forall I k sp, sp < 2 -> av_of t1 w I k sp = av_of t0 w I k sp,
            forall e l sp, e < _nelec fresh -> l < size (b_basis fresh) ->
              sp < 2 -> bp_of t1 e w l sp = bp_of t0 e w l sp
          & forall l c, l < size (b_basis fresh) -> c < 3 ->
              bv_of t1 w l c = bv_of t0 w l c]].
Proof.
apply: recompute_forgets_earlier_state; first exact: accepts_cfg0.
exact: same_model_recompute.
Defined.

(** Three electrons per walker for a molecule of two. *)
Definition cfg3 : Configs :=
  MkConfigs (1%N, 3%N) [:: [:: (1, 0, 0); (0, 1, 0); (0, 0, 1)]].

Lemma three_electrons_are_rejected :
  exists s',
    [/\ recompute cfg3 fresh = Raise s',
        _configscurrent s' = copy cfg3,
        _avalues s' = nseq (shape cfg3).1 zeros3
      & _bvalues s' = nseq (shape cfg3).1 zeros2].
Proof. by apply: recompute_rejects_wrong_electron_count. Defined.

Lemma b_update_of_up_electron :
  exists r,
    [/\ _b_update 0 epos [:: true; false] s1 = Return r s1,
        size r = count id [:: true; false]
      & forall w l sp, nth false [:: true; false] w -> sp < 2 ->
          nth zeros2 r (rank [:: true; false] w) l sp =
          \sum_(0 <= j < _nelec s1 | (j != 0%N) && (edown_of s1 j == sp))
             val (nth f0 (b_basis s1) l)
               (dist_i (pos_of s1 w j) (nth v0 epos w))].
Proof.
apply: b_update_sums_over_other_electrons; first exact: bound_s1.
exact: fits_first_walker.
Defined.

Lemma two_batches_on_two_walkers :
  exists u s2 sall,
    bind (updateinternals 0 epos (Some [:: true; false]))
      (fun _ =>
         bind (updateinternals 0 epos
                 (Some (map negb [:: true; false])))
           (fun _ => value)) s1
    = Return (1, u) s2
    /\ bind (updateinternals 0 epos None) (fun _ => value) s1
       = Return (1, u) sall.
Proof.
apply: two_batches_give_the_value_of_one_update; first exact: bound_s1.
exact: fits_first_walker.
Defined.

End TwoElectron.

(** * The methods on doubles

    The model at the binary64 floats of the kernel, whose operations round
    as those of numpy's doubles do.  One ion at the origin, two up electrons
    and no down electron, one walker; the one-body basis function returns
    the norm of the separation, the two-body basis is empty and every
    one-body coefficient is 1.  The first electron is at distance [2^53]
    from the ion, where the spacing of the doubles is 2, so that adding 1 to
    a sum that holds its term is lost to rounding.  Every sum below has at
    most two terms that are not zero, so the order in which its terms are
    added does not matter. *)

Module Doubles.
Import PrimFloat.

(** [np.linalg.norm] of one vector, and the separation of two positions as
    their difference. *)
Definition norm (v : vec3 float) : float :=
  sqrt (v.1.1 * v.1.1 + v.1.2 * v.1.2 + v.2 * v.2)%float.
Definition dist_i (c v : vec3 float) : vec3 float :=
  ((v.1.1 - c.1.1)%float, (v.1.2 - c.1.2)%float, (v.2 - c.2)%float).

Local Notation init := (@init float 0%float).
Local Notation zeros2 := (@zeros2 float 0%float).
Local Notation zeros3 := (@zeros3 float 0%float).
Local Notation value := (@value float add mul 0%float 1%float).
Local Notation recompute :=
  (@recompute float add mul 0%float 1%float norm dist_i).
Local Notation updateinternals :=
  (@updateinternals float add sub 0%float norm dist_i).
Local Notation testvalue exp :=
  (@testvalue float add sub mul 0%float exp norm dist_i).
Local Notation recompute_path :=
  (@recompute_path float add mul 0%float 1%float norm dist_i).
Local Notation incremental_path :=
  (@incremental_path float add sub mul 0%float 1%float norm dist_i).

Definition lin : func3d float :=
  Func3d (fun _ r => r) (fun d _ => d) (fun d _ => (d, (0, 0, 0)%float)).
Definition mol : Mol float := MkMol 1 (2%N, 0%N) [:: (0, 0, 0)%float].
Definition far : float := 9007199254740992%float.
Definition cfg0 : Configs float :=
  MkConfigs (1%N, 2%N) [:: [:: (far, 0, 0)%float; (1, 0, 0)%float]].
Definition cfg1 : Configs float :=
  MkConfigs (1%N, 2%N) [:: [:: (1, 0, 0)%float; (2, 0, 0)%float]].
Definition fresh : JastrowSpin float :=
  set_acoeff (fun _ _ _ => 1%float) (init mol [:: lin] [::]).

(** The instance bound to [cfg0], the proposed position of the second
    electron, and the instance after the move is committed. *)
Definition s1 : JastrowSpin float := final_state (recompute cfg0 fresh).
Definition epos : Epos float := [:: (2, 0, 0)%float].
Definition s2 : JastrowSpin float :=
  final_state (updateinternals 1 epos None s1).

(** Evaluation: the sums are unrolled, the rest is computed. *)
Ltac run :=
  repeat (cbv -[index_enum];
          progress rewrite ?big_ord_recl ?big_ord0 ?big_cons ?big_nil);
  cbv -[index_enum].

(** The ratio of [testvalue] against the change of [value].  For every
    function [exp], [testvalue] returns [exp 1] for the move of the second
    electron from distance 1 to distance 2, while [value] returns [2^53]
    before the move and [2^53] again after [updateinternals] has committed
    it, since [2^53 + 1] rounds to [2^53]: the difference of the two log
    values is 0, and [exp 1] is not [exp 0] for the exponential. *)
Lemma ratio_is_not_exp_of_value_change :
  [/\ forall exp,
        returned (testvalue exp 1 epos (Some [:: true]) s1)
        = Some [:: exp 1%float],
      returned (value s1) = Some (1%float, [:: far]),
      returned ((updateinternals 1 epos None ;;; value) s1)
      = Some (1%float, [:: far])
    & (far - far)%float = 0%float].
Proof. by split=> [exp| | |]; run. Qed.

(** The two paths of the consistency test.  Binding to [cfg1] gives the log
    value [1 + 2 = 3].  Binding to [cfg0] and moving both electrons to their
    positions in [cfg1] gives 2: the sum starts at [2^53 + 1], which rounds
    to [2^53], and the two updates add [1 - 2^53] and [2 - 1].  The relative
    difference is a third, far above [1e-10]. *)
Lemma incremental_path_differs_from_recompute :
  [/\ returned (recompute_path cfg1 fresh) = Some (1%float, [:: 3%float]),
      returned (incremental_path cfg0 cfg1 fresh)
      = Some (1%float, [:: 2%float])
    & (1e-10 * abs 3 <? abs (3 - 2))%float = true].
Proof. by split; run. Qed.

(** Invariant I1 after an update.  [recompute] and then [updateinternals]
    return; after the second electron has moved to distance 2, the cell of
    [_avalues] for the up electrons holds [2^53], while the cells of
    [_a_partial] of the two up electrons hold [2^53] and 2, whose sum is
    [2^53 + 2]. *)
Lemma avalues_is_not_the_sum_of_a_partial :
  [/\ returned (recompute cfg0 fresh) = Some (1%float, [:: far]),
      returned (updateinternals 1 epos None s1) = Some tt,
      nth zeros3 (_avalues s2) 0 0%N 0%N 0%N = 9007199254740992%float,
      nth zeros2 (nth [::] (_a_partial s2) 0) 0 0%N 0%N
      = 9007199254740992%float
    & nth zeros2 (nth [::] (_a_partial s2) 1) 0 0%N 0%N = 2%float
      /\ (9007199254740992 + 2 =? 9007199254740992)%float = false].
Proof. by split; [| | | | split]; run. Qed.

End Doubles.

